(** * TrustVault: the encrypted reputation ledger

    A shallow embedding of the [TrustVault] contract (Solidity) and proofs
    about its rating log, its per-user encrypted aggregate and its viewer
    authorisation table.

    Storage mappings are finite maps read with Solidity's zero default,
    [uint256] values and addresses are binary naturals, a call is a
    computation in a state monad that may revert, and a transaction commits
    the state of its call only when the call returns. *)

From Stdlib Require Import NArith List Lia.
From stdpp Require Import base decidable countable gmap list strings.
From stdpp Require Import sorting.

Local Open Scope N_scope.

(** ** Solidity value types *)

Abbreviation address := N (only parsing).
Abbreviation uint256 := N (only parsing).
Abbreviation uint32 := N (only parsing).
Abbreviation bytes := (list N) (only parsing).

(** [type(uint256).max] *)
Definition MAX_UINT256 : N := 2 ^ 256 - 1.

(** [address(0)] *)
Definition address_zero : N := 0.

(** ** The encryption capability

    The contract imports [FHE], [euint32] and [externalEuint32] from the
    fhEVM library, which is not part of this repository. *)

(** An input ciphertext as a caller supplies it ([externalEuint32]). *)
Abbreviation externalEuint32 := N (only parsing).

(** Modelled from the spec: the ciphertext handles of the encryption
    capability, [euint32] in the contract.  A handle is an opaque token; the
    capability derives the handle of a result from the operation and its
    operand handles, so a homomorphic sum is a handle of its own and never
    one of its operands.  [Uninit] is the absent handle, [bytes32(0)]. *)
Inductive euint32 : Type :=
| Uninit
| Verified (c : N)
| Trivial (v : N)
| Sum (a b : euint32).

Global Instance euint32_eq_dec : EqDecision euint32.
Proof. solve_decision. Defined.

(** ** Contract storage *)

(** [struct Rating] *)
Record Rating : Type := mkRating {
  rater : address;
  encryptedScore : euint32;
  timestamp : uint256
}.

(** [struct UserScore] *)
Record UserScore : Type := mkUserScore {
  encryptedTotalScore : euint32;
  encryptedCount : euint32;
  publicCount : uint256;
  authorizedViewers : gmap N bool
}.

Inductive Event : Type :=
| RatingSubmitted (ratingId : uint256) (ratedUser rater : address) (time : uint256)
| ViewerAuthorized (user viewer : address)
| ViewerRevoked (user viewer : address).

(** The contract's storage variables, followed by the two things a call
    changes outside them: the capability's grant list and the event log. *)
Record State : Type := mkState {
  userScores : gmap N UserScore;
  userRatings : gmap N (list N);
  ratings : gmap N Rating;
  totalRatings : uint256;
  grants : list (euint32 * N);
  events : list Event
}.

(** Values of unwritten storage slots. *)
Definition zeroRating : Rating := mkRating 0 Uninit 0.
Definition zeroUserScore : UserScore := mkUserScore Uninit Uninit 0 ∅.

(** The state of a freshly deployed contract. *)
Definition initial : State := mkState ∅ ∅ ∅ 0 [] [].

(** Storage reads: [userScores[u]], [userRatings[u]], [ratings[i]],
    [score.authorizedViewers[v]]. *)
Definition scoreOf (s : State) (u : address) : UserScore :=
  default zeroUserScore (userScores s !! u).
Definition ratingsOf (s : State) (u : address) : list N :=
  default [] (userRatings s !! u).
Definition ratingAt (s : State) (i : uint256) : Rating :=
  default zeroRating (ratings s !! i).
Definition viewerFlag (sc : UserScore) (v : address) : bool :=
  default false (authorizedViewers sc !! v).

(** Storage writes, one per assigned location. *)
Definition set_userScores (f : gmap N UserScore → gmap N UserScore) (s : State) : State :=
  let (us, ur, rs, tr, g, ev) := s in mkState (f us) ur rs tr g ev.
Definition set_userRatings (f : gmap N (list N) → gmap N (list N)) (s : State) : State :=
  let (us, ur, rs, tr, g, ev) := s in mkState us (f ur) rs tr g ev.
Definition set_ratings (f : gmap N Rating → gmap N Rating) (s : State) : State :=
  let (us, ur, rs, tr, g, ev) := s in mkState us ur (f rs) tr g ev.
Definition set_totalRatings (n : uint256) (s : State) : State :=
  let (us, ur, rs, tr, g, ev) := s in mkState us ur rs n g ev.
Definition set_grants (f : list (euint32 * N) → list (euint32 * N)) (s : State) : State :=
  let (us, ur, rs, tr, g, ev) := s in mkState us ur rs tr (f g) ev.
Definition set_events (f : list Event → list Event) (s : State) : State :=
  let (us, ur, rs, tr, g, ev) := s in mkState us ur rs tr g (f ev).

Definition with_total (h : euint32) (sc : UserScore) : UserScore :=
  mkUserScore h (encryptedCount sc) (publicCount sc) (authorizedViewers sc).
Definition with_count (h : euint32) (sc : UserScore) : UserScore :=
  mkUserScore (encryptedTotalScore sc) h (publicCount sc) (authorizedViewers sc).
Definition with_publicCount (n : uint256) (sc : UserScore) : UserScore :=
  mkUserScore (encryptedTotalScore sc) (encryptedCount sc) n (authorizedViewers sc).
Definition with_viewer (v : address) (b : bool) (sc : UserScore) : UserScore :=
  mkUserScore (encryptedTotalScore sc) (encryptedCount sc) (publicCount sc)
              (<[v := b]> (authorizedViewers sc)).

(** ** Calls: a state monad with revert *)

Inductive outcome (A : Type) : Type :=
| Return (a : A)
| Revert (reason : string).
Arguments Return {A} a.
Arguments Revert {A} reason.

(** A call body runs on the storage and hands back the storage it has
    written so far, also when it reverts; [transact] below discards it then. *)
Definition M (A : Type) : Type := State → outcome A * State.

Definition ret {A} (a : A) : M A := fun s => (Return a, s).

Definition bind {A B} (m : M A) (k : A → M B) : M B :=
  fun s => match m s with
           | (Return a, s') => k a s'
           | (Revert e, s') => (Revert e, s')
           end.

Notation "'let*' x ':=' m 'in' k" := (bind m (fun x => k))
  (at level 10, x name, m at level 100, k at level 200).
Notation "m ';;' k" := (bind m (fun _ => k))
  (at level 100, k at level 200, right associativity).

Definition revert {A} (reason : string) : M A := fun s => (Revert reason, s).
Definition require (cond : bool) (reason : string) : M unit :=
  if cond then ret tt else revert reason.
Definition read {A} (f : State → A) : M A := fun s => (Return (f s), s).
Definition write (f : State → State) : M unit := fun s => (Return tt, f s).

(** The revert reasons of the contract, under the names of the ledger's
    error kinds. *)
Definition InvalidSubject : string := "Invalid user address".
Definition SelfRatingRejected : string := "Cannot rate yourself".
Definition InvalidViewer : string := "Invalid viewer address".
Definition SelfAuthorizationRejected : string := "Cannot authorize yourself".
Definition NoAggregateYet : string := "No scores to authorize".
Definition AlreadyAuthorized : string := "Viewer already authorized".
Definition NotAuthorized : string := "Viewer not authorized".
Definition NotFound : string := "Rating does not exist".

(** Failures that are not a [require] of the contract: the arithmetic panic
    of a checked [++], and the capability refusing an input proof. *)
Definition ArithmeticPanic : string := "panic: arithmetic overflow (0x11)".
Definition InvalidInputProof : string := "FHE: input proof rejected".

(** [x++] on a [uint256], checked as Solidity 0.8 does. *)
Definition checked_succ (x : uint256) : M uint256 :=
  if x <? MAX_UINT256 then ret (x + 1) else revert ArithmeticPanic.

(** ** The capability's operations *)

Module FHE.

(** Modelled from the spec: [encrypt_constant], [FHE.asEuint32] in the
    contract. *)
Definition asEuint32 (v : uint32) : euint32 := Trivial v.

(** Modelled from the spec: [homomorphic_add], [FHE.add] in the contract:
    a new handle that stands for the sum of its two operands. *)
Definition add (a b : euint32) : euint32 := Sum a b.

(** Modelled from the spec: [encrypt(plaintext, recipient, proof) ->
    handle] as the contract receives it, [FHE.fromExternal]: the input
    ciphertext becomes a handle when its proof verifies for the sender,
    and the call fails otherwise. *)
Definition fromExternal (inputVerifier : address → externalEuint32 → bytes → bool)
    (sender : address) (c : externalEuint32) (inputProof : bytes) : M euint32 :=
  if inputVerifier sender c inputProof then ret (Verified c)
  else revert InvalidInputProof.

(** Modelled from the spec: [grant_decrypt(handle, identity)],
    [FHE.allow] in the contract; [FHE.allowThis] grants to the contract. *)
Definition allow (h : euint32) (account : address) : M unit :=
  write (set_grants (fun g => (h, account) :: g)).
Definition allowThis (this : address) (h : euint32) : M unit := allow h this.

(** Modelled from the spec: the non-opaque stand-in encryption (identity
    function) of the aggregate-correctness test, with the 32-bit arithmetic
    of the type [euint32]: an input ciphertext is its own plaintext, a
    plaintext is a [uint32], and a sum holds the sum of its operands reduced
    modulo [2^32]. *)
Fixpoint cleartext32 (h : euint32) : N :=
  match h with
  | Uninit => 0
  | Verified c => c mod 2 ^ 32
  | Trivial v => v mod 2 ^ 32
  | Sum a b => (cleartext32 a + cleartext32 b) mod 2 ^ 32
  end.

(** Modelled from the spec: [decrypt(handle, requester) -> plaintext |
    PermissionDenied], over the grant list of the capability. *)
Definition decrypt (g : list (euint32 * N)) (h : euint32) (requester : address)
  : option N :=
  if decide ((h, requester) ∈ g) then Some (cleartext32 h) else None.

End FHE.

(** ** The contract *)

(** What a call sees of its transaction: [msg.sender], [block.timestamp]. *)
Record Env : Type := mkEnv {
  msg_sender : address;
  block_timestamp : uint256
}.

(** A write through the storage pointer [UserScore storage score]. *)
Definition update_score (u : address) (f : UserScore → UserScore) (s : State) : State :=
  set_userScores <[u := f (scoreOf s u)]> s.

Definition emit (e : Event) : M unit := write (set_events (fun l => l ++ [e])).

Section Contract.

(** [address(this)] and the capability's check of input proofs. *)
Variable this : address.
Variable inputVerifier : address → externalEuint32 → bytes → bool.

Definition submitRating (env : Env) (ratedUser : address)
    (encryptedScore : externalEuint32) (inputProof : bytes) : M uint256 :=
  require (negb (ratedUser =? address_zero)) InvalidSubject ;;
  require (negb (ratedUser =? msg_sender env)) SelfRatingRejected ;;
  let* ratingId := read totalRatings in
  let* next := checked_succ ratingId in
  write (set_totalRatings next) ;;
  let* encryptedEuint32 :=
    FHE.fromExternal inputVerifier (msg_sender env) encryptedScore inputProof in
  FHE.allowThis this encryptedEuint32 ;;
  FHE.allow encryptedEuint32 (msg_sender env) ;;
  write (set_ratings
           <[ratingId := mkRating (msg_sender env) encryptedEuint32 (block_timestamp env)]>) ;;
  write (set_userRatings
           (fun m => <[ratedUser := default [] (m !! ratedUser) ++ [ratingId]]> m)) ;;
  let* count := read (fun s => publicCount (scoreOf s ratedUser)) in
  (if count =? 0 then
     write (update_score ratedUser (with_total encryptedEuint32)) ;;
     write (update_score ratedUser (with_count (FHE.asEuint32 1)))
   else
     let* total := read (fun s => encryptedTotalScore (scoreOf s ratedUser)) in
     write (update_score ratedUser (with_total (FHE.add total encryptedEuint32))) ;;
     let* cnt := read (fun s => encryptedCount (scoreOf s ratedUser)) in
     write (update_score ratedUser (with_count (FHE.add cnt (FHE.asEuint32 1))))) ;;
  let* total := read (fun s => encryptedTotalScore (scoreOf s ratedUser)) in
  FHE.allowThis this total ;;
  let* cnt := read (fun s => encryptedCount (scoreOf s ratedUser)) in
  FHE.allowThis this cnt ;;
  let* count := read (fun s => publicCount (scoreOf s ratedUser)) in
  let* count' := checked_succ count in
  write (update_score ratedUser (with_publicCount count')) ;;
  let* total := read (fun s => encryptedTotalScore (scoreOf s ratedUser)) in
  FHE.allow total ratedUser ;;
  let* cnt := read (fun s => encryptedCount (scoreOf s ratedUser)) in
  FHE.allow cnt ratedUser ;;
  emit (RatingSubmitted ratingId ratedUser (msg_sender env) (block_timestamp env)) ;;
  ret ratingId.

Definition getEncryptedScore (s : State) (user : address) : euint32 * euint32 * uint256 :=
  let score := scoreOf s user in
  (encryptedTotalScore score, encryptedCount score, publicCount score).

Definition authorizeViewer (env : Env) (viewer : address) : M unit :=
  require (negb (viewer =? address_zero)) InvalidViewer ;;
  require (negb (viewer =? msg_sender env)) SelfAuthorizationRejected ;;
  let* count := read (fun s => publicCount (scoreOf s (msg_sender env))) in
  require (0 <? count) NoAggregateYet ;;
  let* flag := read (fun s => viewerFlag (scoreOf s (msg_sender env)) viewer) in
  require (negb flag) AlreadyAuthorized ;;
  write (update_score (msg_sender env) (with_viewer viewer true)) ;;
  let* total := read (fun s => encryptedTotalScore (scoreOf s (msg_sender env))) in
  FHE.allow total viewer ;;
  let* cnt := read (fun s => encryptedCount (scoreOf s (msg_sender env))) in
  FHE.allow cnt viewer ;;
  emit (ViewerAuthorized (msg_sender env) viewer).

Definition revokeViewer (env : Env) (viewer : address) : M unit :=
  let* flag := read (fun s => viewerFlag (scoreOf s (msg_sender env)) viewer) in
  require flag NotAuthorized ;;
  write (update_score (msg_sender env) (with_viewer viewer false)) ;;
  emit (ViewerRevoked (msg_sender env) viewer).

Definition isAuthorized (s : State) (user viewer : address) : bool :=
  if user =? viewer then true
  else viewerFlag (scoreOf s user) viewer.

Definition getUserRatings (s : State) (user : address) : list N := ratingsOf s user.

Definition getRating (ratingId : uint256) : M (address * euint32 * uint256) :=
  let* rating := read (fun s => ratingAt s ratingId) in
  require (negb (rater rating =? address_zero)) NotFound ;;
  ret (rater rating, encryptedScore rating, timestamp rating).

(** *** Transactions *)

Inductive Call : Type :=
| SubmitRating (ratedUser : address) (encryptedScore : externalEuint32) (inputProof : bytes)
| AuthorizeViewer (viewer : address)
| RevokeViewer (viewer : address)
| GetRating (ratingId : uint256).

Inductive Value : Type :=
| VRatingId (ratingId : uint256)
| VUnit
| VRating (r : address * euint32 * uint256).

Definition dispatch (env : Env) (c : Call) : M Value :=
  match c with
  | SubmitRating u e p => let* i := submitRating env u e p in ret (VRatingId i)
  | AuthorizeViewer v => authorizeViewer env v ;; ret VUnit
  | RevokeViewer v => revokeViewer env v ;; ret VUnit
  | GetRating i => let* r := getRating i in ret (VRating r)
  end.

(** A transaction is all-or-nothing: a reverted call leaves the state the
    transaction started from. *)
Definition transact (env : Env) (c : Call) (s : State) : outcome Value * State :=
  match dispatch env c s with
  | (Return v, s') => (Return v, s')
  | (Revert e, _) => (Revert e, s)
  end.

(** The state after a sequence of transactions, and what each returned. *)
Fixpoint run (s : State) (txs : list (Env * Call)) : State :=
  match txs with
  | [] => s
  | (env, c) :: txs' => run (snd (transact env c s)) txs'
  end.

Fixpoint run_log (s : State) (txs : list (Env * Call))
  : list (Env * Call * outcome Value) :=
  match txs with
  | [] => []
  | (env, c) :: txs' =>
      (env, c, fst (transact env c s)) :: run_log (snd (transact env c s)) txs'
  end.

Definition reachable (s : State) : Prop := ∃ txs, s = run initial txs.

(** *** What a returned call has written, in closed form *)

(** The aggregate after one more score handle is folded into it. *)
Definition folded (h : euint32) (sc : UserScore) : UserScore :=
  if publicCount sc =? 0
  then mkUserScore h (FHE.asEuint32 1) (publicCount sc + 1) (authorizedViewers sc)
  else mkUserScore (FHE.add (encryptedTotalScore sc) h)
                   (FHE.add (encryptedCount sc) (FHE.asEuint32 1))
                   (publicCount sc + 1) (authorizedViewers sc).

Definition submitted (env : Env) (u : address) (c : externalEuint32) (s : State) : State :=
  let h := Verified c in
  let sc := folded h (scoreOf s u) in
  mkState (<[u := sc]> (userScores s))
          (<[u := ratingsOf s u ++ [totalRatings s]]> (userRatings s))
          (<[totalRatings s := mkRating (msg_sender env) h (block_timestamp env)]> (ratings s))
          (totalRatings s + 1)
          ((encryptedCount sc, u) :: (encryptedTotalScore sc, u) ::
           (encryptedCount sc, this) :: (encryptedTotalScore sc, this) ::
           (h, msg_sender env) :: (h, this) :: grants s)
          (events s ++
           [RatingSubmitted (totalRatings s) u (msg_sender env) (block_timestamp env)]).

Definition authorized (env : Env) (v : address) (s : State) : State :=
  let sc := scoreOf s (msg_sender env) in
  mkState (<[msg_sender env := with_viewer v true sc]> (userScores s))
          (userRatings s) (ratings s) (totalRatings s)
          ((encryptedCount sc, v) :: (encryptedTotalScore sc, v) :: grants s)
          (events s ++ [ViewerAuthorized (msg_sender env) v]).

Definition revoked (env : Env) (v : address) (s : State) : State :=
  mkState (<[msg_sender env := with_viewer v false (scoreOf s (msg_sender env))]>
             (userScores s))
          (userRatings s) (ratings s) (totalRatings s) (grants s)
          (events s ++ [ViewerRevoked (msg_sender env) v]).

(** The paths through [submitRating], in the order of its checks. *)
Inductive submit_path (env : Env) (u : address) (c : externalEuint32) (p : bytes)
    (s : State) : outcome uint256 * State → Prop :=
| submit_null :
    u = address_zero →
    submit_path env u c p s (Revert InvalidSubject, s)
| submit_self :
    u ≠ address_zero → u = msg_sender env →
    submit_path env u c p s (Revert SelfRatingRejected, s)
| submit_ids_exhausted :
    u ≠ address_zero → u ≠ msg_sender env → MAX_UINT256 ≤ totalRatings s →
    submit_path env u c p s (Revert ArithmeticPanic, s)
| submit_bad_proof :
    u ≠ address_zero → u ≠ msg_sender env → totalRatings s < MAX_UINT256 →
    inputVerifier (msg_sender env) c p = false →
    submit_path env u c p s
      (Revert InvalidInputProof, set_totalRatings (totalRatings s + 1) s)
| submit_count_exhausted s' :
    u ≠ address_zero → u ≠ msg_sender env → totalRatings s < MAX_UINT256 →
    inputVerifier (msg_sender env) c p = true →
    MAX_UINT256 ≤ publicCount (scoreOf s u) →
    submit_path env u c p s (Revert ArithmeticPanic, s')
| submit_ok :
    u ≠ address_zero → u ≠ msg_sender env → totalRatings s < MAX_UINT256 →
    inputVerifier (msg_sender env) c p = true →
    publicCount (scoreOf s u) < MAX_UINT256 →
    submit_path env u c p s (Return (totalRatings s), submitted env u c s).

(** The paths through [authorizeViewer], [revokeViewer] and [getRating]. *)
Inductive authorize_path (env : Env) (v : address) (s : State)
    : outcome unit * State → Prop :=
| authorize_null :
    v = address_zero →
    authorize_path env v s (Revert InvalidViewer, s)
| authorize_self :
    v ≠ address_zero → v = msg_sender env →
    authorize_path env v s (Revert SelfAuthorizationRejected, s)
| authorize_no_aggregate :
    v ≠ address_zero → v ≠ msg_sender env →
    publicCount (scoreOf s (msg_sender env)) = 0 →
    authorize_path env v s (Revert NoAggregateYet, s)
| authorize_already :
    v ≠ address_zero → v ≠ msg_sender env →
    publicCount (scoreOf s (msg_sender env)) ≠ 0 →
    viewerFlag (scoreOf s (msg_sender env)) v = true →
    authorize_path env v s (Revert AlreadyAuthorized, s)
| authorize_ok :
    v ≠ address_zero → v ≠ msg_sender env →
    publicCount (scoreOf s (msg_sender env)) ≠ 0 →
    viewerFlag (scoreOf s (msg_sender env)) v = false →
    authorize_path env v s (Return tt, authorized env v s).

Inductive revoke_path (env : Env) (v : address) (s : State)
    : outcome unit * State → Prop :=
| revoke_inactive :
    viewerFlag (scoreOf s (msg_sender env)) v = false →
    revoke_path env v s (Revert NotAuthorized, s)
| revoke_ok :
    viewerFlag (scoreOf s (msg_sender env)) v = true →
    revoke_path env v s (Return tt, revoked env v s).

Inductive rating_path (i : uint256) (s : State)
    : outcome (address * euint32 * uint256) * State → Prop :=
| rating_missing :
    rater (ratingAt s i) = address_zero →
    rating_path i s (Revert NotFound, s)
| rating_found :
    rater (ratingAt s i) ≠ address_zero →
    rating_path i s
      (Return (rater (ratingAt s i), encryptedScore (ratingAt s i),
               timestamp (ratingAt s i)), s).

(** What a transaction leaves behind: nothing when its call reverts or only
    reads, the closed forms above when it returns. *)
Inductive tx_effect (env : Env) (s : State) : Call → outcome Value * State → Prop :=
| tx_reverted call e :
    tx_effect env s call (Revert e, s)
| tx_read i r :
    tx_effect env s (GetRating i) (Return (VRating r), s)
| tx_submitted u c p :
    u ≠ address_zero → u ≠ msg_sender env → totalRatings s < MAX_UINT256 →
    inputVerifier (msg_sender env) c p = true →
    publicCount (scoreOf s u) < MAX_UINT256 →
    tx_effect env s (SubmitRating u c p)
      (Return (VRatingId (totalRatings s)), submitted env u c s)
| tx_authorized v :
    v ≠ address_zero → v ≠ msg_sender env →
    publicCount (scoreOf s (msg_sender env)) ≠ 0 →
    viewerFlag (scoreOf s (msg_sender env)) v = false →
    tx_effect env s (AuthorizeViewer v) (Return VUnit, authorized env v s)
| tx_revoked v :
    viewerFlag (scoreOf s (msg_sender env)) v = true →
    tx_effect env s (RevokeViewer v) (Return VUnit, revoked env v s).

(** *** The state invariant *)

Record consistent (s : State) : Prop := mkConsistent {
  count_is_length u :
    publicCount (scoreOf s u) = N.of_nat (length (ratingsOf s u));
  count_bounded u :
    publicCount (scoreOf s u) ≤ totalRatings s;
  handles_absent u :
    publicCount (scoreOf s u) = 0 →
    encryptedTotalScore (scoreOf s u) = Uninit ∧ encryptedCount (scoreOf s u) = Uninit;
  handles_present u :
    publicCount (scoreOf s u) ≠ 0 →
    encryptedTotalScore (scoreOf s u) ≠ Uninit ∧ encryptedCount (scoreOf s u) ≠ Uninit;
  operator_granted u :
    publicCount (scoreOf s u) ≠ 0 →
    (encryptedTotalScore (scoreOf s u), this) ∈ grants s ∧
    (encryptedCount (scoreOf s u), this) ∈ grants s;
  subject_granted u :
    publicCount (scoreOf s u) ≠ 0 →
    (encryptedTotalScore (scoreOf s u), u) ∈ grants s ∧
    (encryptedCount (scoreOf s u), u) ∈ grants s;
  viewers_valid u v :
    viewerFlag (scoreOf s u) v = true →
    v ≠ address_zero ∧ v ≠ u ∧ publicCount (scoreOf s u) ≠ 0
}.

(** *** Reading a transaction log *)

(** What a log entry records of a successful submission for [subject]: the
    id it returned and the score ciphertext it carried. *)
Definition submission_of (subject : address) (entry : Env * Call * outcome Value)
  : option (uint256 * externalEuint32) :=
  match entry with
  | (_, SubmitRating u c _, Return (VRatingId i)) =>
      if u =? subject then Some (i, c) else None
  | _ => None
  end.

(** The successful submissions for [subject] in a log, oldest first. *)
Definition submissions (subject : address) (log : list (Env * Call * outcome Value))
  : list (uint256 * externalEuint32) :=
  omap (submission_of subject) log.

(** The id a log entry assigned, and the ids assigned in a log, oldest
    first. *)
Definition assigned_id (entry : Env * Call * outcome Value) : option uint256 :=
  match entry with
  | (_, SubmitRating _ _ _, Return (VRatingId i)) => Some i
  | _ => None
  end.

Definition assigned_ids (log : list (Env * Call * outcome Value)) : list uint256 :=
  omap assigned_id log.

(** No transaction of the list is a revocation of [viewer] by [user]. *)
Definition no_revoke (user viewer : address) (txs : list (Env * Call)) : Prop :=
  Forall (fun tx => ¬ (msg_sender (fst tx) = user ∧ snd tx = RevokeViewer viewer)) txs.

End Contract.

(** The sum of a list of plaintext scores. *)
Definition sum_scores (l : list N) : N := foldr N.add 0 l.

(** The reasons of the contract's own [require] statements: the validation
    and state-precondition errors of the ledger. *)
Definition require_reasons : list string :=
  [InvalidSubject; SelfRatingRejected; InvalidViewer; SelfAuthorizationRejected;
   NoAggregateYet; AlreadyAuthorized; NotAuthorized; NotFound].

(** A deployment and four accounts to run the ledger on. *)
Module Scenario.
Definition vault : address := 100.
Definition alice : address := 1.
Definition bob : address := 2.
Definition charlie : address := 3.
Definition dave : address := 4.

(** A capability that accepts every input proof. *)
Definition accept_all : address → externalEuint32 → bytes → bool := fun _ _ _ => true.

(** Bob rates Alice 5, Charlie rates Alice 3. *)
Definition two_ratings : list (Env * Call) :=
  [ (mkEnv bob 10, SubmitRating alice 5 []);
    (mkEnv charlie 11, SubmitRating alice 3 []) ].

(** Bob rates Alice 5, Alice authorises Dave, Charlie rates Alice 3. *)
Definition rating_after_grant : list (Env * Call) :=
  [ (mkEnv bob 10, SubmitRating alice 5 []);
    (mkEnv alice 11, AuthorizeViewer dave);
    (mkEnv charlie 12, SubmitRating alice 3 []) ].

(** Bob rates Alice [2^32 - 1], Charlie rates Alice 1. *)
Definition wrapping_ratings : list (Env * Call) :=
  [ (mkEnv bob 10, SubmitRating alice (2 ^ 32 - 1) []);
    (mkEnv charlie 11, SubmitRating alice 1 []) ].

(** Bob rates Alice 5, Alice rates Bob 4, Charlie rates Alice 3. *)
Definition mixed_ratings : list (Env * Call) :=
  [ (mkEnv bob 10, SubmitRating alice 5 []);
    (mkEnv alice 11, SubmitRating bob 4 []);
    (mkEnv charlie 12, SubmitRating alice 3 []) ].
End Scenario.

(** ** Further readings of the state and of histories *)

(** Every transaction of a history is sent from a non-zero address. *)
Definition senders_nonzero (txs : list (Env * Call)) : Prop :=
  Forall (fun tx => msg_sender (fst tx) ≠ address_zero) txs.

(** The [RatingSubmitted] events of an event log, oldest first. *)
Definition rating_events (evs : list Event)
  : list (uint256 * address * address * uint256) :=
  omap (fun e => match e with
                 | RatingSubmitted i u r t => Some (i, u, r, t)
                 | _ => None
                 end) evs.

(** The [RatingSubmitted] event that a log entry of a returned submission
    stands for: id, rated user, sender, time. *)
Definition emitted_rating (entry : Env * Call * outcome Value)
  : option (uint256 * address * address * uint256) :=
  match entry with
  | (env, SubmitRating u _ _, Return (VRatingId i)) =>
      Some (i, u, msg_sender env, block_timestamp env)
  | _ => None
  end.

(** What an event log tells about the pair (user, viewer): the kind of its
    last [ViewerAuthorized] or [ViewerRevoked] event for the pair, and
    [false] when it has none. *)
Definition told_status (user viewer : address) (st : bool) (e : Event) : bool :=
  match e with
  | ViewerAuthorized u v => if (u =? user) && (v =? viewer) then true else st
  | ViewerRevoked u v => if (u =? user) && (v =? viewer) then false else st
  | RatingSubmitted _ _ _ _ => st
  end.

Definition last_status (user viewer : address) (evs : list Event) : bool :=
  foldl (told_status user viewer) false evs.

(** The rating log and the per-user indexes fit together: stored ratings and
    indexed ids lie below the id counter, every id below it is indexed, and
    no id is indexed twice. *)
Record indexed (s : State) : Prop := mkIndexed {
  stored_below i : totalRatings s ≤ i → ratings s !! i = None;
  stored_covers i : i < totalRatings s → is_Some (ratings s !! i);
  index_below u i : i ∈ ratingsOf s u → i < totalRatings s;
  index_covers i : i < totalRatings s → ∃ u, i ∈ ratingsOf s u;
  index_disjoint u u' i : i ∈ ratingsOf s u → i ∈ ratingsOf s u' → u = u';
  index_nodup u : NoDup (ratingsOf s u)
}.

(** ** The front end's list of authorised viewers

    [fetchAuthorizedViewers] of the hook [useTrustVault] asks the provider
    for the user's [ViewerAuthorized] and [ViewerRevoked] events and rebuilds
    the list of viewers from them.  This is the function for a connected
    user and a provider that answers; without a user, and when the provider
    fails, the hook sets the empty list.  Viewer addresses are compared after
    [toLowerCase()]; here they are compared as numbers. *)
Module Hook.

(** An event as the provider returns it: [event.args.viewer] and
    [event.blockNumber]. *)
Record LogEvent : Type := mkLogEvent {
  args_viewer : address;
  event_blockNumber : N
}.

(** [{ authorized: boolean; blockNumber: number }] *)
Record Status : Type := mkStatus {
  authorized : bool;
  blockNumber : N
}.

(** A JavaScript [Map] from viewers to statuses: its entries in insertion
    order; [set] on a present key replaces the value where it stands. *)
Fixpoint get (m : list (N * Status)) (k : address) : option Status :=
  match m with
  | [] => None
  | (k', x) :: m' => if k' =? k then Some x else get m' k
  end.

Fixpoint set (k : address) (x : Status) (m : list (N * Status)) : list (N * Status) :=
  match m with
  | [] => [(k, x)]
  | (k', x') :: m' => if k' =? k then (k', x) :: m' else (k', x') :: set k x m'
  end.

(** The body of either loop: [authorized] is [true] in the loop over the
    authorised events and [false] in the loop over the revoked ones. *)
Definition record (flag : bool) (viewerStatus : list (N * Status)) (event : LogEvent)
  : list (N * Status) :=
  let viewer := args_viewer event in
  let blockNumber' := event_blockNumber event in
  match get viewerStatus viewer with
  | Some current =>
      if blockNumber current <? blockNumber'
      then set viewer (mkStatus flag blockNumber') viewerStatus
      else viewerStatus
  | None => set viewer (mkStatus flag blockNumber') viewerStatus
  end.

Definition viewerStatus (authorizedEvents revokedEvents : list LogEvent)
  : list (N * Status) :=
  foldl (record false) (foldl (record true) [] authorizedEvents) revokedEvents.

Definition currentlyAuthorized (authorizedEvents revokedEvents : list LogEvent)
  : list address :=
  (filter (fun entry => authorized (snd entry) = true)
          (viewerStatus authorizedEvents revokedEvents)).*1.

(** [contract.queryFilter(contract.filters.ViewerAuthorized(address))] and
    its [ViewerRevoked] twin, on the contract's event log with the number of
    the block of each event. *)
Definition authorizedFilter (user : address) (chain : list (N * Event)) : list LogEvent :=
  omap (fun be => match snd be with
                  | ViewerAuthorized u v =>
                      if u =? user then Some (mkLogEvent v (fst be)) else None
                  | _ => None
                  end) chain.

Definition revokedFilter (user : address) (chain : list (N * Event)) : list LogEvent :=
  omap (fun be => match snd be with
                  | ViewerRevoked u v =>
                      if u =? user then Some (mkLogEvent v (fst be)) else None
                  | _ => None
                  end) chain.

Definition fetchAuthorizedViewers (user : address) (chain : list (N * Event))
  : list address :=
  currentlyAuthorized (authorizedFilter user chain) (revokedFilter user chain).

End Hook.

(** * Proofs *)

(** ** Running a call body step by step *)

Lemma bind_ret {A B} (a : A) (k : A → M B) s : bind (ret a) k s = k a s.
Proof. reflexivity. Qed.

Lemma bind_read {A B} (f : State → A) (k : A → M B) s : bind (read f) k s = k (f s) s.
Proof. reflexivity. Qed.

Lemma bind_write {B} (f : State → State) (k : unit → M B) s :
  bind (write f) k s = k tt (f s).
Proof. reflexivity. Qed.

Lemma bind_revert {A B} e (k : A → M B) s : bind (revert e) k s = (Revert e, s).
Proof. reflexivity. Qed.

Lemma bind_bind {A B C} (m : M A) (f : A → M B) (g : B → M C) s :
  bind (bind m f) g s = bind m (fun a => bind (f a) g) s.
Proof. unfold bind. destruct (m s) as [[a|e] s']; reflexivity. Qed.

Lemma scoreOf_update_eq u f s : scoreOf (update_score u f s) u = f (scoreOf s u).
Proof.
  destruct s. unfold scoreOf, update_score. cbn [set_userScores userScores].
  by rewrite lookup_insert_eq.
Qed.

Lemma scoreOf_set_totalRatings n s u : scoreOf (set_totalRatings n s) u = scoreOf s u.
Proof. by destruct s. Qed.

Lemma scoreOf_set_grants f s u : scoreOf (set_grants f s) u = scoreOf s u.
Proof. by destruct s. Qed.

Lemma scoreOf_set_ratings f s u : scoreOf (set_ratings f s) u = scoreOf s u.
Proof. by destruct s. Qed.

Lemma scoreOf_set_userRatings f s u : scoreOf (set_userRatings f s) u = scoreOf s u.
Proof. by destruct s. Qed.

Lemma scoreOf_set_events f s u : scoreOf (set_events f s) u = scoreOf s u.
Proof. by destruct s. Qed.

Create Rewrite HintDb vault.
#[export] Hint Rewrite scoreOf_update_eq scoreOf_set_totalRatings scoreOf_set_grants
  scoreOf_set_ratings scoreOf_set_userRatings scoreOf_set_events : vault.

(** One statement of a body: a monad law, then the storage reads it exposes. *)
Ltac mstep :=
  first [ rewrite bind_ret | rewrite bind_read | rewrite bind_write
        | rewrite bind_revert | rewrite bind_bind ]; cbv beta.

Ltac sc_norm :=
  autorewrite with vault;
  cbn [with_count with_total with_publicCount with_viewer
       publicCount encryptedCount encryptedTotalScore authorizedViewers].

Ltac run_body := repeat (mstep; sc_norm).

(** A pair is on the grant list: at its head, or further down. *)
Ltac on_grants :=
  repeat split;
  repeat first [ assumption | apply list_elem_of_here | apply list_elem_of_further ].

(** Both sides are the same record once the writes are carried out on the
    fields of the starting state. *)
Ltac same_state s :=
  destruct s; unfold update_score, scoreOf, ratingsOf;
  cbn [set_events set_grants set_userScores set_userRatings
       set_ratings set_totalRatings
       userScores userRatings ratings totalRatings grants events];
  f_equal;
  rewrite ?(insert_insert_eq (M := gmap N)), ?(lookup_insert_eq (M := gmap N));
  cbn [default with_count with_total with_publicCount with_viewer
       publicCount encryptedCount encryptedTotalScore authorizedViewers];
  rewrite ?(lookup_insert_eq (M := gmap N));
  reflexivity.

Section Bodies.

Variable this : address.
Variable inputVerifier : address → externalEuint32 → bytes → bool.

Lemma submitRating_path env u c p s :
  submit_path this inputVerifier env u c p s (submitRating this inputVerifier env u c p s).
Proof.
  unfold submitRating, checked_succ, FHE.fromExternal, FHE.allowThis, FHE.allow, emit.
  destruct (N.eqb_spec u address_zero) as [Hz|Hz]; [by constructor|].
  destruct (N.eqb_spec u (msg_sender env)) as [Hs|Hs]; [by constructor|].
  cbn [negb require]. repeat mstep.
  destruct (N.ltb_spec (totalRatings s) MAX_UINT256) as [Ht|Ht];
    [|by apply submit_ids_exhausted].
  repeat mstep.
  destruct (inputVerifier (msg_sender env) c p) eqn:Hv;
    [|by apply submit_bad_proof].
  run_body.
  destruct (N.ltb_spec (publicCount (scoreOf s u)) MAX_UINT256) as [Hc|Hc].
  - match goal with
    | |- submit_path _ _ _ _ _ _ _ ?r =>
        replace r with (Return (totalRatings s), submitted this env u c s);
        [by apply submit_ok|]
    end.
    apply N.ltb_lt in Hc. unfold submitted, folded.
    destruct (publicCount (scoreOf s u) =? 0) eqn:E;
      run_body; rewrite Hc; run_body; f_equal; same_state s.
  - apply N.ltb_ge in Hc.
    destruct (publicCount (scoreOf s u) =? 0) eqn:E;
      run_body; rewrite Hc; run_body; apply submit_count_exhausted; trivial;
      by apply N.ltb_ge.
Qed.

Lemma authorizeViewer_path env v s :
  authorize_path env v s (authorizeViewer env v s).
Proof.
  unfold authorizeViewer, FHE.allow, emit.
  destruct (N.eqb_spec v address_zero) as [Hz|Hz]; [by constructor|].
  destruct (N.eqb_spec v (msg_sender env)) as [Hs|Hs]; [by constructor|].
  cbn [negb require]. run_body.
  destruct (N.ltb_spec 0 (publicCount (scoreOf s (msg_sender env)))) as [Hc|Hc];
    [|apply authorize_no_aggregate; trivial; lia].
  cbn [require]. run_body.
  destruct (viewerFlag (scoreOf s (msg_sender env)) v) eqn:Hf;
    cbn [negb require]; run_body.
  - apply authorize_already; trivial; lia.
  - match goal with
    | |- authorize_path _ _ _ ?r =>
        replace r with (Return tt, authorized env v s);
        [apply authorize_ok; trivial; lia|]
    end.
    unfold authorized. f_equal. same_state s.
Qed.

Lemma revokeViewer_path env v s :
  revoke_path env v s (revokeViewer env v s).
Proof.
  unfold revokeViewer, emit. run_body.
  destruct (viewerFlag (scoreOf s (msg_sender env)) v) eqn:Hf;
    cbn [require]; run_body.
  - match goal with
    | |- revoke_path _ _ _ ?r =>
        replace r with (Return tt, revoked env v s); [by apply revoke_ok|]
    end.
    unfold revoked. f_equal. same_state s.
  - by apply revoke_inactive.
Qed.

Lemma getRating_path i s : rating_path i s (getRating i s).
Proof.
  unfold getRating. run_body.
  destruct (N.eqb_spec (rater (ratingAt s i)) address_zero) as [Hz|Hz];
    cbn [negb require]; run_body.
  - by apply rating_missing.
  - by apply rating_found.
Qed.

End Bodies.

(** ** Transactions and the invariant *)

Section Ledger.

Variable this : address.
Variable inputVerifier : address → externalEuint32 → bytes → bool.

Lemma transact_effect env call s :
  tx_effect this inputVerifier env s call (transact this inputVerifier env call s).
Proof.
  unfold transact, dispatch. destruct call as [u c p|v|v|i]; unfold bind.
  - destruct (submitRating_path this inputVerifier env u c p s);
      try apply tx_reverted. by apply tx_submitted.
  - destruct (authorizeViewer_path env v s); try apply tx_reverted.
    by apply tx_authorized.
  - destruct (revokeViewer_path env v s); try apply tx_reverted.
    by apply tx_revoked.
  - destruct (getRating_path i s); [apply tx_reverted | apply tx_read].
Qed.

(** Reads of the closed forms. *)
Lemma scoreOf_submitted env u c s u' :
  scoreOf (submitted this env u c s) u' =
  if decide (u' = u) then folded (Verified c) (scoreOf s u) else scoreOf s u'.
Proof.
  unfold scoreOf at 1. cbn [submitted userScores].
  case_decide as E; [subst; by rewrite lookup_insert_eq|].
  by rewrite lookup_insert_ne.
Qed.

Lemma ratingsOf_submitted env u c s u' :
  ratingsOf (submitted this env u c s) u' =
  if decide (u' = u) then ratingsOf s u ++ [totalRatings s] else ratingsOf s u'.
Proof.
  unfold ratingsOf at 1. cbn [submitted userRatings].
  case_decide as E; [subst; by rewrite lookup_insert_eq|].
  by rewrite lookup_insert_ne.
Qed.

Lemma scoreOf_authorized env v s u' :
  scoreOf (authorized env v s) u' =
  if decide (u' = msg_sender env) then with_viewer v true (scoreOf s u') else scoreOf s u'.
Proof.
  unfold scoreOf at 1. cbn [authorized userScores].
  case_decide as E; [subst; by rewrite lookup_insert_eq|].
  by rewrite lookup_insert_ne.
Qed.

Lemma scoreOf_revoked env v s u' :
  scoreOf (revoked env v s) u' =
  if decide (u' = msg_sender env) then with_viewer v false (scoreOf s u') else scoreOf s u'.
Proof.
  unfold scoreOf at 1. cbn [revoked userScores].
  case_decide as E; [subst; by rewrite lookup_insert_eq|].
  by rewrite lookup_insert_ne.
Qed.

Lemma viewerFlag_with_viewer v b sc v' :
  viewerFlag (with_viewer v b sc) v' = if decide (v' = v) then b else viewerFlag sc v'.
Proof.
  unfold viewerFlag, with_viewer. cbn [authorizedViewers].
  case_decide as E; [subst; by rewrite lookup_insert_eq|].
  by rewrite lookup_insert_ne.
Qed.

Lemma folded_publicCount h sc : publicCount (folded h sc) = publicCount sc + 1.
Proof. unfold folded. by destruct (publicCount sc =? 0). Qed.

Lemma folded_viewers h sc : authorizedViewers (folded h sc) = authorizedViewers sc.
Proof. unfold folded. by destruct (publicCount sc =? 0). Qed.

Lemma folded_initialized h sc :
  h ≠ Uninit →
  encryptedTotalScore (folded h sc) ≠ Uninit ∧ encryptedCount (folded h sc) ≠ Uninit.
Proof. unfold folded. by destruct (publicCount sc =? 0). Qed.

Lemma viewerFlag_folded h sc v : viewerFlag (folded h sc) v = viewerFlag sc v.
Proof. unfold viewerFlag. by rewrite folded_viewers. Qed.

Lemma consistent_initial : consistent this initial.
Proof.
  assert (Hs : ∀ u, scoreOf initial u = zeroUserScore) by done.
  assert (Hr : ∀ u, ratingsOf initial u = []) by done.
  split; intros u; rewrite ?Hs, ?Hr; cbn; try done; lia.
Qed.

Lemma consistent_submitted env u c s :
  consistent this s → consistent this (submitted this env u c s).
Proof.
  intros [Hlen Hbnd Habs Hpres Hop Hsub Hview].
  pose proof (folded_initialized (Verified c) (scoreOf s u)) as Hinit.
  split; intros u0; rewrite ?scoreOf_submitted, ?ratingsOf_submitted;
    cbn [grants totalRatings submitted]; case_decide as E; subst;
    rewrite ?folded_publicCount, ?length_app; cbn [length].
  - specialize (Hlen u). lia.
  - apply Hlen.
  - specialize (Hbnd u). lia.
  - specialize (Hbnd u0). lia.
  - lia.
  - apply Habs.
  - intros _. by apply Hinit.
  - apply Hpres.
  - intros _. on_grants.
  - intros H. destruct (Hop u0 H). on_grants.
  - intros _. on_grants.
  - intros H. destruct (Hsub u0 H). on_grants.
  - intros v. rewrite viewerFlag_folded. intros H.
    destruct (Hview u v H) as (? & ? & ?). repeat split; trivial; lia.
  - apply Hview.
Qed.

Lemma consistent_authorized env v s :
  v ≠ address_zero → v ≠ msg_sender env →
  publicCount (scoreOf s (msg_sender env)) ≠ 0 →
  consistent this s → consistent this (authorized env v s).
Proof.
  intros Hz Hs Hc [Hlen Hbnd Habs Hpres Hop Hsub Hview].
  assert (Hr : ∀ u, ratingsOf (authorized env v s) u = ratingsOf s u) by done.
  split; intros u0; rewrite ?scoreOf_authorized, ?Hr;
    cbn [grants totalRatings authorized]; case_decide as E; subst;
    cbn [with_viewer publicCount encryptedTotalScore encryptedCount]; auto.
  - intros H. destruct (Hop _ H). on_grants.
  - intros H. destruct (Hop _ H). on_grants.
  - intros H. destruct (Hsub _ H). on_grants.
  - intros H. destruct (Hsub _ H). on_grants.
  - intros v'. rewrite viewerFlag_with_viewer. case_decide; subst; auto.
Qed.

Lemma consistent_revoked env v s :
  consistent this s → consistent this (revoked env v s).
Proof.
  intros [Hlen Hbnd Habs Hpres Hop Hsub Hview].
  assert (Hr : ∀ u, ratingsOf (revoked env v s) u = ratingsOf s u) by done.
  split; intros u0; rewrite ?scoreOf_revoked, ?Hr;
    cbn [grants totalRatings revoked]; case_decide as E; subst;
    cbn [with_viewer publicCount encryptedTotalScore encryptedCount]; auto.
  intros v'. rewrite viewerFlag_with_viewer. case_decide; subst; auto.
Qed.

Lemma consistent_transact env call s :
  consistent this s → consistent this (snd (transact this inputVerifier env call s)).
Proof.
  intros H. destruct (transact_effect env call s); cbn [snd]; trivial.
  - by apply consistent_submitted.
  - by apply consistent_authorized.
  - by apply consistent_revoked.
Qed.

Lemma consistent_run txs s :
  consistent this s → consistent this (run this inputVerifier s txs).
Proof.
  revert s. induction txs as [|[env call] txs IH]; intros s H; cbn; trivial.
  apply IH. by apply consistent_transact.
Qed.

Lemma reachable_consistent s :
  reachable this inputVerifier s → consistent this s.
Proof. intros [txs ->]. apply consistent_run, consistent_initial. Qed.

End Ledger.

(** ** Rejected calls *)

Section Rejection.

Variable this : address.
Variable inputVerifier : address → externalEuint32 → bytes → bool.

Local Abbreviation tx := (transact this inputVerifier).
Local Abbreviation body := (dispatch this inputVerifier).

Lemma panic_not_required : ArithmeticPanic ∉ require_reasons.
Proof. unfold require_reasons. rewrite !not_elem_of_cons. repeat split; easy. Qed.

Lemma bad_proof_not_required : InvalidInputProof ∉ require_reasons.
Proof. unfold require_reasons. rewrite !not_elem_of_cons. repeat split; easy. Qed.

(** A transaction that reverts keeps the state it started from. *)
Lemma transact_revert_state env call s e :
  fst (tx env call s) = Revert e → snd (tx env call s) = s.
Proof.
  destruct (transact_effect this inputVerifier env call s); cbn; easy.
Qed.

(** A failed [require] has written nothing: the checks of every function
    precede its first write. *)
Lemma dispatch_require_state env call s e :
  fst (body env call s) = Revert e → e ∈ require_reasons →
  snd (body env call s) = s.
Proof.
  unfold dispatch. destruct call as [u c p|v|v|i]; unfold bind.
  - destruct (submitRating_path this inputVerifier env u c p s); cbn; trivial.
    + intros [= <-] Hin. destruct (bad_proof_not_required Hin).
    + intros [= <-] Hin. destruct (panic_not_required Hin).
    + easy.
  - destruct (authorizeViewer_path env v s); cbn; easy.
  - destruct (revokeViewer_path env v s); cbn; easy.
  - destruct (getRating_path i s); cbn; easy.
Qed.

Lemma transact_dispatch_outcome env call s :
  fst (tx env call s) = fst (body env call s).
Proof.
  unfold transact. by destruct (body env call s) as [[v|e] s'].
Qed.

(** C3. A rejected operation changes nothing: when a [submitRating],
    [authorizeViewer], [revokeViewer] or [getRating] call fails, the state
    after the transaction is the state before it, so the rating log with
    its id counter, the aggregates and the authorisation table are all as
    they were; and when the failure is one of the validation or
    state-precondition errors, the call had not written anything by the
    time it failed. *)
Theorem rejected_call_changes_nothing env call s e :
  fst (tx env call s) = Revert e →
  snd (tx env call s) = s ∧
  (e ∈ require_reasons → snd (body env call s) = s).
Proof.
  intros H. split; [by eapply transact_revert_state|].
  rewrite transact_dispatch_outcome in H. by apply dispatch_require_state.
Qed.

(** The rollback is not idle: a submission whose input proof is refused has
    already advanced the id counter when it fails. *)
Lemma refused_proof_is_rolled_back env u c p s :
  u ≠ address_zero → u ≠ msg_sender env → totalRatings s < MAX_UINT256 →
  inputVerifier (msg_sender env) c p = false →
  totalRatings (snd (body env (SubmitRating u c p) s)) = totalRatings s + 1 ∧
  tx env (SubmitRating u c p) s = (Revert InvalidInputProof, s).
Proof.
  intros Hz Hs Ht Hv. unfold transact, dispatch, bind.
  destruct (submitRating_path this inputVerifier env u c p s);
    try easy; try lia; try congruence.
  by destruct s.
Qed.

End Rejection.

(** ** The operations one by one *)

Section Operations.

Variable this : address.
Variable inputVerifier : address → externalEuint32 → bytes → bool.

Local Abbreviation tx := (transact this inputVerifier).
Local Abbreviation reachable := (reachable this inputVerifier).

Lemma transact_submit env u c p s :
  tx env (SubmitRating u c p) s =
  match submitRating this inputVerifier env u c p s with
  | (Return i, s') => (Return (VRatingId i), s')
  | (Revert e, _) => (Revert e, s)
  end.
Proof.
  unfold transact, dispatch, bind.
  by destruct (submitRating this inputVerifier env u c p s) as [[i|e] s'].
Qed.

Lemma transact_authorize env v s :
  tx env (AuthorizeViewer v) s =
  match authorizeViewer env v s with
  | (Return _, s') => (Return VUnit, s')
  | (Revert e, _) => (Revert e, s)
  end.
Proof.
  unfold transact, dispatch, bind.
  by destruct (authorizeViewer env v s) as [[i|e] s'].
Qed.

Lemma transact_revoke env v s :
  tx env (RevokeViewer v) s =
  match revokeViewer env v s with
  | (Return _, s') => (Return VUnit, s')
  | (Revert e, _) => (Revert e, s)
  end.
Proof.
  unfold transact, dispatch, bind.
  by destruct (revokeViewer env v s) as [[i|e] s'].
Qed.

(** C4. [submitRating] fails with InvalidSubject exactly when the rated
    user is the zero address, and with SelfRatingRejected exactly when the
    rated user is the (non-zero) sender; for every other input whose proof
    the capability accepts it returns the id it assigns, which is the
    number of ratings created so far, and files the rating under the rated
    user; and whenever it fails the state is left as it was.  The id
    counter is taken below the [uint256] ceiling, where the checked
    increment cannot panic. *)
Theorem submit_rating_outcomes env u c p s :
  reachable s →
  let r := tx env (SubmitRating u c p) s in
  (fst r = Revert InvalidSubject ↔ u = address_zero) ∧
  (fst r = Revert SelfRatingRejected ↔ u ≠ address_zero ∧ u = msg_sender env) ∧
  (u ≠ address_zero → u ≠ msg_sender env →
   inputVerifier (msg_sender env) c p = true → totalRatings s < MAX_UINT256 →
   fst r = Return (VRatingId (totalRatings s)) ∧
   totalRatings (snd r) = totalRatings s + 1 ∧
   ratingAt (snd r) (totalRatings s) =
     mkRating (msg_sender env) (Verified c) (block_timestamp env) ∧
   getUserRatings (snd r) u = getUserRatings s u ++ [totalRatings s]) ∧
  (∀ e, fst r = Revert e → snd r = s).
Proof.
  intros Hreach r. subst r.
  pose proof (count_bounded _ _ (reachable_consistent _ _ _ Hreach) u) as Hb.
  rewrite transact_submit.
  destruct (submitRating_path this inputVerifier env u c p s); cbn [fst snd].
  1-5: repeat split; try easy; try lia; try congruence.
  repeat split; try easy; try congruence.
  - unfold ratingAt. cbn [submitted ratings]. by rewrite lookup_insert_eq.
  - unfold getUserRatings. rewrite ratingsOf_submitted. by case_decide.
Qed.

Lemma decrypt_granted g h a :
  (h, a) ∈ g → FHE.decrypt g h a = Some (FHE.cleartext32 h).
Proof. intros H. unfold FHE.decrypt. by case_decide. Qed.

(** C5. [authorizeViewer], called by the subject, applies its checks in
    the order they are listed: InvalidViewer for the zero address,
    SelfAuthorizationRejected for the subject itself, NoAggregateYet while
    the subject's public count is 0, AlreadyAuthorized while the viewer's
    flag is set (in a reachable state a set flag implies that the three
    earlier checks pass).  Exactly when none applies the call returns: the
    flag is set, the viewer is granted decryption of the subject's current
    total and count handles, and ViewerAuthorized is emitted. *)
Theorem authorize_viewer_outcomes env v s :
  reachable s →
  let subject := msg_sender env in
  let total := encryptedTotalScore (scoreOf s subject) in
  let count := encryptedCount (scoreOf s subject) in
  let r := tx env (AuthorizeViewer v) s in
  (v = address_zero → r = (Revert InvalidViewer, s)) ∧
  (v ≠ address_zero → v = subject → r = (Revert SelfAuthorizationRejected, s)) ∧
  (v ≠ address_zero → v ≠ subject → publicCount (scoreOf s subject) = 0 →
   r = (Revert NoAggregateYet, s)) ∧
  (viewerFlag (scoreOf s subject) v = true → r = (Revert AlreadyAuthorized, s)) ∧
  (v ≠ address_zero → v ≠ subject → publicCount (scoreOf s subject) ≠ 0 →
   viewerFlag (scoreOf s subject) v = false →
   fst r = Return VUnit ∧
   viewerFlag (scoreOf (snd r) subject) v = true ∧
   isAuthorized (snd r) subject v = true ∧
   getEncryptedScore (snd r) subject = getEncryptedScore s subject ∧
   grants (snd r) = (count, v) :: (total, v) :: grants s ∧
   FHE.decrypt (grants (snd r)) total v = Some (FHE.cleartext32 total) ∧
   FHE.decrypt (grants (snd r)) count v = Some (FHE.cleartext32 count) ∧
   events (snd r) = events s ++ [ViewerAuthorized subject v]) ∧
  (fst r = Return VUnit ↔
   v ≠ address_zero ∧ v ≠ subject ∧ publicCount (scoreOf s subject) ≠ 0 ∧
   viewerFlag (scoreOf s subject) v = false).
Proof.
  intros Hreach subject total count r. subst r subject total count.
  pose proof (viewers_valid _ _ (reachable_consistent _ _ _ Hreach)
                (msg_sender env) v) as Hv.
  rewrite transact_authorize.
  destruct (authorizeViewer_path env v s); cbn [fst snd];
    repeat split; try easy; try congruence;
    try (intros (? & ? & ? & ?); congruence).
  1-3: intros Hf; destruct (Hv Hf) as (? & ? & ?); easy.
  - rewrite scoreOf_authorized. case_decide; [|easy].
    rewrite viewerFlag_with_viewer. by case_decide.
  - unfold isAuthorized. destruct (N.eqb_spec (msg_sender env) v); [easy|].
    rewrite scoreOf_authorized. case_decide; [|easy].
    rewrite viewerFlag_with_viewer. by case_decide.
  - unfold getEncryptedScore. rewrite scoreOf_authorized. by case_decide.
  - apply decrypt_granted. cbn [authorized grants]. on_grants.
  - apply decrypt_granted. cbn [authorized grants]. on_grants.
Qed.

(** The public count of a user never decreases. *)
Lemma publicCount_transact env call s u :
  publicCount (scoreOf s u) ≤ publicCount (scoreOf (snd (tx env call s)) u).
Proof.
  destruct (transact_effect this inputVerifier env call s); cbn [snd]; try lia.
  - rewrite scoreOf_submitted. case_decide; subst;
      rewrite ?folded_publicCount; lia.
  - rewrite scoreOf_authorized. case_decide; subst; cbn; lia.
  - rewrite scoreOf_revoked. case_decide; subst; cbn; lia.
Qed.

Lemma publicCount_run txs s u :
  publicCount (scoreOf s u) ≤ publicCount (scoreOf (run this inputVerifier s txs) u).
Proof.
  revert s. induction txs as [|[env call] txs IH]; intros s; cbn; [lia|].
  etrans; [apply (publicCount_transact env call)|apply IH].
Qed.

(** A viewer's flag stays set until the user revokes that viewer. *)
Lemma viewerFlag_transact env call s u v :
  ¬ (msg_sender env = u ∧ call = RevokeViewer v) →
  viewerFlag (scoreOf s u) v = true →
  viewerFlag (scoreOf (snd (tx env call s)) u) v = true.
Proof.
  intros Hno Hf.
  destruct (transact_effect this inputVerifier env call s); cbn [snd]; trivial.
  - rewrite scoreOf_submitted. case_decide; subst; trivial.
    by rewrite viewerFlag_folded.
  - rewrite scoreOf_authorized. case_decide; subst; trivial.
    rewrite viewerFlag_with_viewer. by case_decide.
  - rewrite scoreOf_revoked. case_decide; subst; trivial.
    rewrite viewerFlag_with_viewer. case_decide; subst; trivial.
    by destruct Hno.
Qed.

Lemma viewerFlag_run txs s u v :
  no_revoke u v txs →
  viewerFlag (scoreOf s u) v = true →
  viewerFlag (scoreOf (run this inputVerifier s txs) u) v = true.
Proof.
  revert s. induction txs as [|[env call] txs IH]; intros s Hno Hf; cbn; trivial.
  apply Forall_cons in Hno as [Hhd Htl].
  apply IH; trivial. by apply viewerFlag_transact.
Qed.

(** C6. For a viewer other than the subject: a successful grant makes
    [isAuthorized] true; a successful revoke makes it false; after a
    successful grant, and whatever else happens as long as the subject
    does not revoke that viewer, [isAuthorized] stays true, a further grant
    fails with AlreadyAuthorized, and the subject's revoke returns, leaves
    [isAuthorized] false, and cannot be repeated (NotAuthorized); a revoke
    while the relation is not active fails with NotAuthorized, and a revoke
    while it is active returns; and a grant to a non-zero viewer by a
    subject that has a rating returns while the relation is not active. *)
Theorem authorization_round_trip env v s :
  v ≠ msg_sender env →
  let subject := msg_sender env in
  let granted := tx env (AuthorizeViewer v) s in
  let revoked := tx env (RevokeViewer v) s in
  (fst granted = Return VUnit → isAuthorized (snd granted) subject v = true) ∧
  (fst revoked = Return VUnit → isAuthorized (snd revoked) subject v = false) ∧
  (fst granted = Return VUnit →
   ∀ txs env', msg_sender env' = subject → no_revoke subject v txs →
     let s' := run this inputVerifier (snd granted) txs in
     let revoked' := tx env' (RevokeViewer v) s' in
     fst (tx env' (AuthorizeViewer v) s') = Revert AlreadyAuthorized ∧
     isAuthorized s' subject v = true ∧
     fst revoked' = Return VUnit ∧
     isAuthorized (snd revoked') subject v = false ∧
     fst (tx env' (RevokeViewer v) (snd revoked')) = Revert NotAuthorized) ∧
  (isAuthorized s subject v = false → fst revoked = Revert NotAuthorized) ∧
  (isAuthorized s subject v = true → fst revoked = Return VUnit) ∧
  (v ≠ address_zero → publicCount (scoreOf s subject) ≠ 0 →
   isAuthorized s subject v = false → fst granted = Return VUnit).
Proof.
  intros Hne subject granted revoked. subst granted revoked subject.
  assert (Hauth : ∀ st, isAuthorized st (msg_sender env) v = viewerFlag (scoreOf st (msg_sender env)) v).
  { intros st. unfold isAuthorized. by destruct (N.eqb_spec (msg_sender env) v). }
  assert (Hrevoke : ∀ env' st, msg_sender env' = msg_sender env →
            viewerFlag (scoreOf st (msg_sender env)) v = true →
            fst (tx env' (RevokeViewer v) st) = Return VUnit ∧
            viewerFlag (scoreOf (snd (tx env' (RevokeViewer v) st)) (msg_sender env)) v = false).
  { intros env' st Hsender Hf. rewrite transact_revoke.
    destruct (revokeViewer_path env' v st) as [Hf'|Hf']; cbn [fst snd];
      rewrite Hsender in *; [congruence|].
    split; [easy|]. rewrite scoreOf_revoked, Hsender. case_decide; [|easy].
    rewrite viewerFlag_with_viewer. by case_decide. }
  assert (Hrefused : ∀ env' st, msg_sender env' = msg_sender env →
            viewerFlag (scoreOf st (msg_sender env)) v = false →
            fst (tx env' (RevokeViewer v) st) = Revert NotAuthorized).
  { intros env' st Hsender Hf. rewrite transact_revoke.
    destruct (revokeViewer_path env' v st) as [Hf'|Hf']; cbn [fst];
      rewrite Hsender in *; [easy|congruence]. }
  rewrite !Hauth.
  split; [|split; [|split; [|split; [|split]]]].
  - rewrite transact_authorize.
    destruct (authorizeViewer_path env v s); cbn [fst snd]; try easy.
    intros _. rewrite scoreOf_authorized. case_decide; [|easy].
    rewrite viewerFlag_with_viewer. by case_decide.
  - rewrite transact_revoke.
    destruct (revokeViewer_path env v s); cbn [fst snd]; try easy.
    intros _. rewrite scoreOf_revoked. case_decide; [|easy].
    rewrite viewerFlag_with_viewer. by case_decide.
  - rewrite transact_authorize.
    destruct (authorizeViewer_path env v s) as [| | | |Hz Hs Hc Hf];
      cbn [fst snd]; try easy.
    intros _ txs env' Hsender Hno. cbv zeta. rewrite !Hauth.
    set (s1 := authorized env v s).
    assert (Hf1 : viewerFlag (scoreOf s1 (msg_sender env)) v = true).
    { unfold s1. rewrite scoreOf_authorized. case_decide; [|easy].
      rewrite viewerFlag_with_viewer. by case_decide. }
    assert (Hc1 : publicCount (scoreOf s1 (msg_sender env)) ≠ 0).
    { unfold s1. rewrite scoreOf_authorized. by case_decide. }
    pose proof (viewerFlag_run txs s1 (msg_sender env) v Hno Hf1) as Hf2.
    pose proof (publicCount_run txs s1 (msg_sender env)) as Hc2.
    destruct (Hrevoke env' (run this inputVerifier s1 txs) Hsender Hf2) as [Hret Hoff].
    split; [|split; [exact Hf2|split; [exact Hret|split; [exact Hoff|]]]].
    + rewrite transact_authorize.
      destruct (authorizeViewer_path env' v (run this inputVerifier s1 txs));
        cbn [fst]; rewrite ?Hsender in *; try easy; try congruence.
      lia.
    + by apply Hrefused.
  - by apply Hrefused.
  - intros Hf. by apply Hrevoke.
  - intros Hz Hc Hf. rewrite transact_authorize.
    destruct (authorizeViewer_path env v s); cbn [fst]; try easy; congruence.
Qed.

(** C7. A user is always authorised to view their own score: whatever
    state the ledger starts from and whatever transactions follow,
    including grants and revocations, [isAuthorized x x] is true. *)
Theorem self_view_always s txs x :
  isAuthorized (run this inputVerifier s txs) x x = true.
Proof. unfold isAuthorized. by rewrite N.eqb_refl. Qed.

(** C8. In a reachable state a user's public count is 0 exactly when both
    aggregate handles are absent (and then neither is: past 0 both are
    present); no transaction decreases the count; and a returned
    [submitRating] for the user increases it by exactly 1 and leaves every
    other user's count alone. *)
Theorem visible_count_and_handles env call s u :
  reachable s →
  let s' := snd (tx env call s) in
  (publicCount (scoreOf s u) = 0 ↔
   encryptedTotalScore (scoreOf s u) = Uninit ∧ encryptedCount (scoreOf s u) = Uninit) ∧
  (publicCount (scoreOf s u) ≠ 0 →
   encryptedTotalScore (scoreOf s u) ≠ Uninit ∧ encryptedCount (scoreOf s u) ≠ Uninit) ∧
  publicCount (scoreOf s u) ≤ publicCount (scoreOf s' u) ∧
  (∀ rated c p i, call = SubmitRating rated c p →
     fst (tx env call s) = Return i →
     publicCount (scoreOf s' u) =
     if decide (u = rated) then publicCount (scoreOf s u) + 1
     else publicCount (scoreOf s u)).
Proof.
  intros Hreach s'. subst s'.
  pose proof (reachable_consistent _ _ _ Hreach) as [_ _ Habs Hpres _ _ _].
  split; [|split; [|split]].
  - split; [apply Habs|]. intros [Ht Hc].
    destruct (N.eq_dec (publicCount (scoreOf s u)) 0) as [|Hn]; trivial.
    by destruct (Hpres u Hn).
  - apply Hpres.
  - apply publicCount_transact.
  - intros rated c p i Hcall Hret.
    destruct (transact_effect this inputVerifier env call s);
      cbn [fst snd] in *; try easy.
    injection Hcall as -> -> ->.
    rewrite scoreOf_submitted. case_decide; subst; trivial.
    apply folded_publicCount.
Qed.

End Operations.

(** ** Histories *)

Section Histories.

Variable this : address.
Variable inputVerifier : address → externalEuint32 → bytes → bool.

Local Abbreviation tx := (transact this inputVerifier).
Local Abbreviation exec := (run this inputVerifier).
Local Abbreviation log_of := (run_log this inputVerifier).

Lemma cleartext32_lt h : FHE.cleartext32 h < 2 ^ 32.
Proof. destruct h; cbn [FHE.cleartext32]; try (by apply N.mod_lt). reflexivity. Qed.

Lemma cleartext32_small h : FHE.cleartext32 h mod 2 ^ 32 = FHE.cleartext32 h.
Proof. apply N.mod_small, cleartext32_lt. Qed.

(** Reducing an operand before an addition that is itself reduced changes
    nothing. *)
Lemma add_mod_step (m t c rest : N) :
  ((t + c mod m) mod m + rest) mod m = (t + (c + rest)) mod m.
Proof.
  rewrite N.Div0.add_mod_idemp_l.
  replace (t + c mod m + rest) with (c mod m + (t + rest)) by lia.
  rewrite N.Div0.add_mod_idemp_l. f_equal. lia.
Qed.

(** Folding a handle adds its plaintext to the total and one to the count,
    in 32-bit arithmetic, provided an aggregate whose public count is 0 has
    no handles yet. *)
Lemma folded_cleartext32 h sc :
  (publicCount sc = 0 →
   encryptedTotalScore sc = Uninit ∧ encryptedCount sc = Uninit) →
  FHE.cleartext32 (encryptedTotalScore (folded h sc)) =
    (FHE.cleartext32 (encryptedTotalScore sc) + FHE.cleartext32 h) mod 2 ^ 32 ∧
  FHE.cleartext32 (encryptedCount (folded h sc)) =
    (FHE.cleartext32 (encryptedCount sc) + 1) mod 2 ^ 32.
Proof.
  intros Habs. unfold folded.
  destruct (N.eqb_spec (publicCount sc) 0) as [E|E];
    cbn [encryptedTotalScore encryptedCount].
  - destruct (Habs E) as [-> ->]. cbn [FHE.cleartext32 FHE.asEuint32].
    by rewrite !N.add_0_l, cleartext32_small.
  - cbn [FHE.add FHE.asEuint32 FHE.cleartext32].
    by rewrite N.Div0.add_mod_idemp_r.
Qed.

(** One transaction, seen from [subject]: a logged submission folds its
    handle into the aggregate and appends its id, which is the value of the
    id counter; anything else leaves the aggregate and the index alone. *)
Lemma transact_subject env call s subject :
  let s' := snd (tx env call s) in
  match submission_of subject (env, call, fst (tx env call s)) with
  | Some (i, c) =>
      i = totalRatings s ∧
      scoreOf s' subject = folded (Verified c) (scoreOf s subject) ∧
      ratingsOf s' subject = ratingsOf s subject ++ [i]
  | None =>
      publicCount (scoreOf s' subject) = publicCount (scoreOf s subject) ∧
      encryptedTotalScore (scoreOf s' subject) = encryptedTotalScore (scoreOf s subject) ∧
      encryptedCount (scoreOf s' subject) = encryptedCount (scoreOf s subject) ∧
      ratingsOf s' subject = ratingsOf s subject
  end.
Proof.
  destruct (transact_effect this inputVerifier env call s) as [call| |u c p| |];
    cbn [fst snd submission_of].
  - destruct call; cbn; repeat split.
  - cbn. repeat split.
  - rewrite scoreOf_submitted, ratingsOf_submitted.
    destruct (N.eqb_spec u subject) as [->|Hne]; case_decide;
      try congruence; repeat split.
  - rewrite scoreOf_authorized. case_decide; repeat split.
  - rewrite scoreOf_revoked. case_decide; repeat split.
Qed.

(** One transaction, seen from the id counter. *)
Lemma transact_counter env call s :
  match assigned_id (env, call, fst (tx env call s)) with
  | Some i => i = totalRatings s ∧ totalRatings (snd (tx env call s)) = totalRatings s + 1
  | None => totalRatings (snd (tx env call s)) = totalRatings s
  end.
Proof.
  destruct (transact_effect this inputVerifier env call s) as [call| |u c p| |];
    cbn [fst snd assigned_id]; try easy.
  by destruct call.
Qed.

Lemma submissions_cons subject entry log :
  submissions subject (entry :: log) =
  match submission_of subject entry with
  | Some x => x :: submissions subject log
  | None => submissions subject log
  end.
Proof. reflexivity. Qed.

Lemma assigned_ids_cons entry log :
  assigned_ids (entry :: log) =
  match assigned_id entry with
  | Some i => i :: assigned_ids log
  | None => assigned_ids log
  end.
Proof. reflexivity. Qed.

(** The aggregate of [subject] after a history, from any consistent state:
    the handles hold what they held plus the scores, and plus their number,
    in 32-bit arithmetic. *)
Lemma aggregate_from s txs subject :
  consistent this s →
  let s' := exec s txs in
  let scores := (submissions subject (log_of s txs)).*2 in
  publicCount (scoreOf s' subject) =
    publicCount (scoreOf s subject) + N.of_nat (length scores) ∧
  FHE.cleartext32 (encryptedTotalScore (scoreOf s' subject)) =
    (FHE.cleartext32 (encryptedTotalScore (scoreOf s subject)) + sum_scores scores)
      mod 2 ^ 32 ∧
  FHE.cleartext32 (encryptedCount (scoreOf s' subject)) =
    (FHE.cleartext32 (encryptedCount (scoreOf s subject)) + N.of_nat (length scores))
      mod 2 ^ 32.
Proof.
  revert s. induction txs as [|[env call] txs IH]; intros s Hs.
  - cbn. rewrite !N.add_0_r, !cleartext32_small. by repeat split.
  - pose proof (consistent_transact this inputVerifier env call s Hs) as Hs'.
    destruct (IH _ Hs') as (IHn & IHt & IHc).
    pose proof (transact_subject env call s subject) as Hstep.
    cbn [run run_log]. rewrite submissions_cons.
    destruct (submission_of subject _) as [[i c]|];
      cbn [fmap list_fmap snd length sum_scores foldr].
    + destruct Hstep as (_ & Hsc & _).
      destruct (folded_cleartext32 (Verified c) (scoreOf s subject)
                  (handles_absent _ _ Hs subject)) as [Ht Hc].
      rewrite Hsc in IHn, IHt, IHc. rewrite folded_publicCount in IHn.
      rewrite Ht in IHt. rewrite Hc in IHc. cbn [FHE.cleartext32] in IHt.
      fold (sum_scores (submissions subject (log_of (snd (tx env call s)) txs)).*2).
      split; [lia|]. split.
      * rewrite IHt. apply add_mod_step.
      * rewrite IHc. rewrite <- (N.mod_small 1 (2 ^ 32)) at 1 by reflexivity.
        rewrite add_mod_step. f_equal. lia.
    + destruct Hstep as (Hn & Ht & Hc & _). rewrite Hn, Ht, Hc in *.
      by repeat split.
Qed.

(** The rating index of [subject] after a history: the ids of the logged
    submissions are appended in order. *)
Lemma index_from s txs subject :
  ratingsOf (exec s txs) subject =
  ratingsOf s subject ++ (submissions subject (log_of s txs)).*1.
Proof.
  revert s. induction txs as [|[env call] txs IH]; intros s.
  - cbn. by rewrite app_nil_r.
  - pose proof (transact_subject env call s subject) as Hstep.
    cbn [run run_log]. rewrite submissions_cons, IH.
    destruct (submission_of subject _) as [[i c]|]; cbn [fmap list_fmap fst].
    + destruct Hstep as (_ & _ & ->). by rewrite <- app_assoc.
    + by destruct Hstep as (_ & _ & _ & ->).
Qed.

Lemma fmap_seq_S (f : nat → N) a n : f <$> seq (S a) n = (f ∘ S) <$> seq a n.
Proof. by rewrite <- fmap_S_seq, <- list_fmap_compose. Qed.

(** The ids assigned in a history count up from the id counter, which ends
    up advanced by their number. *)
Lemma counter_from s txs :
  let ids := assigned_ids (log_of s txs) in
  ids = (fun k => totalRatings s + N.of_nat k) <$> seq 0 (length ids) ∧
  totalRatings (exec s txs) = totalRatings s + N.of_nat (length ids).
Proof.
  revert s. induction txs as [|[env call] txs IH]; intros s.
  - cbn. split; [done | lia].
  - pose proof (transact_counter env call s) as Hstep.
    destruct (IH (snd (tx env call s))) as [IHids IHtot].
    cbn [run run_log]. cbv zeta. rewrite assigned_ids_cons.
    destruct (assigned_id _) as [i|].
    + destruct Hstep as [-> Hs']. rewrite Hs' in *.
      cbn [length seq fmap list_fmap]. split.
      * f_equal; [lia|]. rewrite fmap_seq_S. rewrite IHids at 1.
        apply list_fmap_ext. intros _ k _. cbn. lia.
      * lia.
    + rewrite Hstep in *. by split.
Qed.

(** C1. After any history from deployment, let [s1 .. sN] be the scores of
    the successful submissions for a subject, in order.  The subject's
    aggregate then shows a public count of [N]; once there is a rating, the
    subject is granted both handles, and decrypting them returns
    [s1 + ... + sN] and [N] in the 32-bit arithmetic of [euint32], that is
    modulo [2^32] (with no rating both handles are absent).  As long as the
    sum, and the number, stay below [2^32] the decrypted values are the sum
    and the number themselves. *)
Theorem aggregate_correct_mod32 txs subject :
  let s := exec initial txs in
  let scores := (submissions subject (log_of initial txs)).*2 in
  let n := N.of_nat (length scores) in
  let '(total, count, visible) := getEncryptedScore s subject in
  visible = n ∧
  match scores with
  | [] => total = Uninit ∧ count = Uninit
  | _ :: _ =>
      FHE.decrypt (grants s) total subject = Some (sum_scores scores mod 2 ^ 32) ∧
      FHE.decrypt (grants s) count subject = Some (n mod 2 ^ 32)
  end ∧
  (scores ≠ [] → sum_scores scores < 2 ^ 32 →
   FHE.decrypt (grants s) total subject = Some (sum_scores scores)) ∧
  (scores ≠ [] → n < 2 ^ 32 →
   FHE.decrypt (grants s) count subject = Some n).
Proof.
  cbv zeta. unfold getEncryptedScore.
  destruct (aggregate_from initial txs subject (consistent_initial this))
    as (Hn & Ht & Hc).
  pose proof (consistent_run this inputVerifier txs initial (consistent_initial this))
    as Hcons.
  change (scoreOf initial subject) with zeroUserScore in *.
  cbn [zeroUserScore publicCount encryptedTotalScore encryptedCount FHE.cleartext32] in *.
  rewrite N.add_0_l in Hn, Ht, Hc.
  assert (Hgranted :
    (submissions subject (log_of initial txs)).*2 ≠ [] →
    FHE.decrypt (grants (exec initial txs))
      (encryptedTotalScore (scoreOf (exec initial txs) subject)) subject
      = Some (sum_scores (submissions subject (log_of initial txs)).*2 mod 2 ^ 32) ∧
    FHE.decrypt (grants (exec initial txs))
      (encryptedCount (scoreOf (exec initial txs) subject)) subject
      = Some (N.of_nat (length (submissions subject (log_of initial txs)).*2) mod 2 ^ 32)).
  { intros Hsome.
    assert (Hpos : publicCount (scoreOf (exec initial txs) subject) ≠ 0).
    { rewrite Hn. destruct (submissions subject (log_of initial txs)).*2;
        [done | cbn [length]; lia]. }
    destruct (subject_granted _ _ Hcons subject Hpos) as [Gt Gc].
    rewrite <- Ht, <- Hc. split; by apply decrypt_granted. }
  split; [exact Hn|]. split; [|split].
  - destruct (submissions subject (log_of initial txs)).*2 as [|c scores] eqn:E.
    + apply (handles_absent _ _ Hcons). by rewrite Hn.
    + by apply Hgranted.
  - intros Hsome Hlt. destruct (Hgranted Hsome) as [-> _].
    by rewrite N.mod_small.
  - intros Hsome Hlt. destruct (Hgranted Hsome) as [_ ->].
    by rewrite N.mod_small.
Qed.

(** C9. Rating ids are assigned globally and sequentially from 0: the ids
    returned by the successful submissions of a history are [0, 1, 2, ...]
    in order, each the number of ratings created before it, and the id
    counter ends at their number; so no id is assigned twice.  The index of
    a subject lists exactly the ids of the successful submissions for that
    subject, in the order they were made, and later transactions only
    append to it.  And ids are assigned: after the history, a submission
    that passes the checks (below the [uint256] ceiling of the counter)
    returns the number of ratings created so far as its id, advances the
    counter by one, appends the id to the rated user's index and leaves
    every other index as it was. *)
Theorem ids_sequential txs :
  let s := exec initial txs in
  let ids := assigned_ids (log_of initial txs) in
  ids = N.of_nat <$> seq 0 (length ids) ∧
  totalRatings s = N.of_nat (length ids) ∧
  NoDup ids ∧
  (∀ subject,
     getUserRatings s subject = (submissions subject (log_of initial txs)).*1) ∧
  (∀ subject txs',
     getUserRatings s subject `prefix_of` getUserRatings (exec s txs') subject) ∧
  (∀ env u c p,
     u ≠ address_zero → u ≠ msg_sender env →
     inputVerifier (msg_sender env) c p = true →
     N.of_nat (length ids) < MAX_UINT256 →
     let r := tx env (SubmitRating u c p) s in
     fst r = Return (VRatingId (N.of_nat (length ids))) ∧
     totalRatings (snd r) = N.of_nat (length ids) + 1 ∧
     getUserRatings (snd r) u = getUserRatings s u ++ [N.of_nat (length ids)] ∧
     ∀ u', u' ≠ u → getUserRatings (snd r) u' = getUserRatings s u').
Proof.
  cbv zeta. destruct (counter_from initial txs) as [Hids Htot].
  cbn [initial totalRatings] in Hids, Htot.
  assert (Hseq : assigned_ids (log_of initial txs) =
                 N.of_nat <$> seq 0 (length (assigned_ids (log_of initial txs)))).
  { rewrite Hids at 1. apply list_fmap_ext. intros _ k _. cbn. lia. }
  split; [exact Hseq|]. split; [lia|]. split; [|split; [|split]].
  - rewrite Hseq. apply NoDup_fmap_2; [intros x y; apply Nat2N.inj | apply NoDup_seq].
  - intros subject. unfold getUserRatings. by rewrite index_from.
  - intros subject txs'. unfold getUserRatings. rewrite (index_from _ txs').
    by eexists.
  - intros env u c p Hz Hself Hproof Hroom.
    pose proof (consistent_run this inputVerifier txs initial (consistent_initial this))
      as Hcons.
    pose proof (count_bounded _ _ Hcons u) as Hb.
    rewrite N.add_0_l in Htot. rewrite <- Htot in *.
    rewrite transact_submit.
    destruct (submitRating_path this inputVerifier env u c p (exec initial txs));
      cbn [fst snd]; try congruence; try lia.
    unfold getUserRatings.
    repeat split; try easy.
    + rewrite ratingsOf_submitted. by case_decide.
    + intros u' Hne. rewrite ratingsOf_submitted. by case_decide.
Qed.

(** C10. After every transaction of every history, the public count of a
    user's aggregate is the length of that user's rating index. *)
Theorem count_matches_index txs user :
  let s := exec initial txs in
  (getEncryptedScore s user).2 = N.of_nat (length (getUserRatings s user)).
Proof.
  cbv zeta. unfold getEncryptedScore, getUserRatings. cbn [snd].
  apply (count_is_length this).
  apply consistent_run, consistent_initial.
Qed.

End Histories.

(** ** Grants after a fold *)

Section Grants.

Variable this : address.
Variable inputVerifier : address → externalEuint32 → bytes → bool.

Local Abbreviation tx := (transact this inputVerifier).

(** X16. A returned [submitRating] grants the refreshed handles of the rated
    user to the contract and to the rated user. *)
Lemma fold_grants_operator_and_subject env u c p s i :
  fst (tx env (SubmitRating u c p) s) = Return i →
  let s' := snd (tx env (SubmitRating u c p) s) in
  let '(total, count, _) := getEncryptedScore s' u in
  (total, this) ∈ grants s' ∧ (count, this) ∈ grants s' ∧
  (total, u) ∈ grants s' ∧ (count, u) ∈ grants s'.
Proof.
  rewrite transact_submit.
  destruct (submitRating_path this inputVerifier env u c p s);
    cbn [fst snd]; try easy.
  intros _. unfold getEncryptedScore. rewrite scoreOf_submitted.
  case_decide; [|easy]. cbn [submitted grants]. on_grants.
Qed.

(** It grants nothing to anyone else: whoever is neither the contract, the
    rated user nor the sender holds after it exactly the grants held
    before, on the superseded handles. *)
Lemma fold_grants_nothing_to_others env u c p s h v :
  v ≠ this → v ≠ u → v ≠ msg_sender env →
  (h, v) ∈ grants (snd (tx env (SubmitRating u c p) s)) ↔ (h, v) ∈ grants s.
Proof.
  intros Ht Hu Hs. rewrite transact_submit.
  destruct (submitRating_path this inputVerifier env u c p s);
    cbn [fst snd]; try easy.
  cbn [submitted grants]. rewrite !elem_of_cons.
  split; [|tauto].
  intros [Hin|[Hin|[Hin|[Hin|[Hin|[Hin|Hin]]]]]]; trivial; congruence.
Qed.

End Grants.

(** ** The ledger at work *)

Import Scenario.

(** Bob rates Alice 5 and Charlie rates Alice 3: the public count is 2, and
    Alice decrypts a total of 8 and a count of 2. *)
Example two_ratings_aggregate :
  let s := run vault accept_all initial two_ratings in
  let '(total, count, visible) := getEncryptedScore s alice in
  visible = 2 ∧
  FHE.decrypt (grants s) total alice = Some 8 ∧
  FHE.decrypt (grants s) count alice = Some 2 ∧
  getUserRatings s alice = [0; 1].
Proof. vm_compute. repeat split. Qed.

(** The repository's tests, run on the embedding: a fresh contract shows
    absent handles and a count of 0; rating oneself is refused; Alice, once
    rated, authorises Bob and revokes him again; without a rating she cannot
    authorise anyone. *)
Example initial_score :
  getEncryptedScore initial alice = (Uninit, Uninit, 0).
Proof. reflexivity. Qed.

Example self_rating_refused :
  transact vault accept_all (mkEnv alice 10) (SubmitRating alice 5 []) initial
  = (Revert "Cannot rate yourself", initial).
Proof. reflexivity. Qed.

Example authorization_and_revocation :
  let s0 := run vault accept_all initial [ (mkEnv bob 10, SubmitRating alice 4 []) ] in
  let s1 := run vault accept_all s0 [ (mkEnv alice 11, AuthorizeViewer bob) ] in
  let s2 := run vault accept_all s1 [ (mkEnv alice 12, RevokeViewer bob) ] in
  isAuthorized s0 alice bob = false ∧
  isAuthorized s1 alice bob = true ∧
  isAuthorized s2 alice bob = false ∧
  isAuthorized s2 alice alice = true.
Proof. vm_compute. repeat split. Qed.

Example no_aggregate_no_authorization :
  transact vault accept_all (mkEnv alice 10) (AuthorizeViewer bob) initial
  = (Revert "No scores to authorize", initial).
Proof. reflexivity. Qed.

(** C1, as the claim states it, fails where the 32-bit total wraps: Bob
    rates Alice [2^32 - 1] and Charlie rates her 1; both submissions return,
    the public count is 2 and Alice decrypts a count of 2, but the total she
    decrypts is 0 and not the sum [2^32] of the two scores. *)
Lemma total_wraps_at_32_bits :
  let s := run vault accept_all initial wrapping_ratings in
  let scores := (submissions alice (run_log vault accept_all initial wrapping_ratings)).*2 in
  let '(total, count, visible) := getEncryptedScore s alice in
  scores = [2 ^ 32 - 1; 1] ∧
  visible = 2 ∧
  FHE.decrypt (grants s) count alice = Some 2 ∧
  FHE.decrypt (grants s) total alice = Some 0 ∧
  FHE.decrypt (grants s) total alice ≠ Some (sum_scores scores).
Proof. vm_compute. repeat split; discriminate. Qed.

(** C2. Decryption grants on the handles a fold installs.  The contract
    grants them to itself and to the rated user only: a viewer the user has
    authorised is not granted the new handles.  Here Alice authorises Dave
    after her first rating, and Dave decrypts her total; after Charlie's
    rating [isAuthorized] still answers true for Dave, the contract and Alice
    decrypt the new total, and Dave is denied both new handles. *)
Theorem viewer_not_regranted_after_fold :
  let s1 := run vault accept_all initial (take 2 rating_after_grant) in
  let s2 := run vault accept_all initial rating_after_grant in
  let '(total1, count1, _) := getEncryptedScore s1 alice in
  let '(total2, count2, _) := getEncryptedScore s2 alice in
  isAuthorized s1 alice dave = true ∧
  FHE.decrypt (grants s1) total1 dave = Some 5 ∧
  isAuthorized s2 alice dave = true ∧
  total2 ≠ total1 ∧ count2 ≠ count1 ∧
  FHE.decrypt (grants s2) total2 vault = Some 8 ∧
  FHE.decrypt (grants s2) total2 alice = Some 8 ∧
  FHE.decrypt (grants s2) total2 dave = None ∧
  FHE.decrypt (grants s2) count2 dave = None.
Proof. vm_compute. repeat split; discriminate. Qed.

(** ** Instances *)

Lemma rejected_call_witness :
  fst (transact vault accept_all (mkEnv alice 10) (SubmitRating alice 5 []) initial)
    = Revert SelfRatingRejected ∧
  snd (transact vault accept_all (mkEnv alice 10) (SubmitRating alice 5 []) initial)
    = initial.
Proof.
  split; [reflexivity|].
  exact (proj1 (rejected_call_changes_nothing vault accept_all (mkEnv alice 10)
                  (SubmitRating alice 5 []) initial SelfRatingRejected eq_refl)).
Defined.

Lemma submit_rating_witness :
  reachable vault accept_all initial ∧
  fst (transact vault accept_all (mkEnv bob 10) (SubmitRating alice 5 []) initial)
    = Return (VRatingId 0).
Proof.
  assert (Hr : reachable vault accept_all initial) by (by exists []).
  split; [exact Hr|].
  destruct (submit_rating_outcomes vault accept_all (mkEnv bob 10) alice 5 [] initial Hr)
    as (_ & _ & Hok & _).
  apply Hok; [discriminate | discriminate | reflexivity | reflexivity].
Defined.

Lemma authorize_viewer_witness :
  let s := run vault accept_all initial (take 1 rating_after_grant) in
  reachable vault accept_all s ∧
  fst (transact vault accept_all (mkEnv alice 11) (AuthorizeViewer dave) s)
    = Return VUnit.
Proof.
  cbv zeta.
  assert (Hr : reachable vault accept_all
                 (run vault accept_all initial (take 1 rating_after_grant)))
    by (by eexists).
  split; [exact Hr|].
  destruct (authorize_viewer_outcomes vault accept_all (mkEnv alice 11) dave _ Hr)
    as (_ & _ & _ & _ & Hok & _).
  apply Hok; [discriminate | discriminate | vm_compute; discriminate | reflexivity].
Defined.

Lemma authorization_round_trip_witness :
  let s := run vault accept_all initial (take 1 rating_after_grant) in
  let granted := transact vault accept_all (mkEnv alice 11) (AuthorizeViewer dave) s in
  let revoked := transact vault accept_all (mkEnv alice 12) (RevokeViewer dave) (snd granted) in
  dave ≠ alice ∧
  fst granted = Return VUnit ∧
  isAuthorized (snd granted) alice dave = true ∧
  fst (transact vault accept_all (mkEnv alice 12) (AuthorizeViewer dave) (snd granted))
    = Revert AlreadyAuthorized ∧
  fst revoked = Return VUnit ∧
  isAuthorized (snd revoked) alice dave = false ∧
  fst (transact vault accept_all (mkEnv alice 12) (RevokeViewer dave) (snd revoked))
    = Revert NotAuthorized ∧
  fst (transact vault accept_all (mkEnv alice 11) (RevokeViewer dave) s)
    = Revert NotAuthorized.
Proof.
  cbv zeta. assert (Hne : dave ≠ alice) by discriminate.
  split; [exact Hne|].
  destruct (authorization_round_trip vault accept_all (mkEnv alice 11) dave
              (run vault accept_all initial (take 1 rating_after_grant)) Hne)
    as (Hgrant & _ & Hafter & Hrevoke & _ & Hreturns).
  assert (Hgranted :
    fst (transact vault accept_all (mkEnv alice 11) (AuthorizeViewer dave)
           (run vault accept_all initial (take 1 rating_after_grant))) = Return VUnit).
  { apply Hreturns; [discriminate | vm_compute; discriminate | reflexivity]. }
  destruct (Hafter Hgranted [] (mkEnv alice 12) eq_refl (Forall_nil_2 _))
    as (Hagain & _ & Hback & Hoff & Honce).
  split; [exact Hgranted|].
  split; [exact (Hgrant Hgranted)|].
  split; [exact Hagain|].
  split; [exact Hback|].
  split; [exact Hoff|].
  split; [exact Honce|].
  apply Hrevoke. reflexivity.
Defined.

Lemma aggregate_correct_mod32_witness :
  let s := run vault accept_all initial two_ratings in
  let scores := (submissions alice (run_log vault accept_all initial two_ratings)).*2 in
  scores = [5; 3] ∧
  sum_scores scores < 2 ^ 32 ∧
  publicCount (scoreOf s alice) = 2 ∧
  FHE.decrypt (grants s) (encryptedTotalScore (scoreOf s alice)) alice = Some 8 ∧
  FHE.decrypt (grants s) (encryptedCount (scoreOf s alice)) alice = Some 2.
Proof.
  cbv zeta.
  pose proof (aggregate_correct_mod32 vault accept_all two_ratings alice) as H.
  unfold getEncryptedScore in H. cbv beta iota zeta in H.
  destruct H as (Hn & _ & Ht & Hc).
  assert (Hsc : (submissions alice (run_log vault accept_all initial two_ratings)).*2
                = [5; 3]) by reflexivity.
  assert (Hlt : sum_scores (submissions alice
                  (run_log vault accept_all initial two_ratings)).*2 < 2 ^ 32)
    by (rewrite Hsc; reflexivity).
  split; [exact Hsc|]. split; [exact Hlt|].
  split; [rewrite Hn, Hsc; reflexivity|].
  split.
  - rewrite Ht; [by rewrite Hsc | rewrite Hsc; discriminate | exact Hlt].
  - rewrite Hc; [by rewrite Hsc | rewrite Hsc; discriminate | rewrite Hsc; reflexivity].
Defined.

Lemma ids_sequential_witness :
  let s := run vault accept_all initial mixed_ratings in
  let r := transact vault accept_all (mkEnv dave 13) (SubmitRating bob 2 []) s in
  assigned_ids (run_log vault accept_all initial mixed_ratings) = [0; 1; 2] ∧
  totalRatings s = 3 ∧
  getUserRatings s alice = [0; 2] ∧
  getUserRatings s bob = [1] ∧
  fst r = Return (VRatingId 3) ∧
  totalRatings (snd r) = 4 ∧
  getUserRatings (snd r) bob = [1; 3] ∧
  getUserRatings (snd r) alice = [0; 2].
Proof.
  cbv zeta.
  destruct (ids_sequential vault accept_all mixed_ratings)
    as (Hseq & Htot & _ & Hidx & _ & Hnext).
  assert (Hlen : length (assigned_ids (run_log vault accept_all initial mixed_ratings))
                 = 3%nat) by reflexivity.
  destruct (Hnext (mkEnv dave 13) bob 2 []) as (Hret & Hcnt & Hbob & Hrest);
    [discriminate | discriminate | reflexivity | rewrite Hlen; reflexivity |].
  rewrite Hlen in Hret, Hcnt, Hbob.
  split; [rewrite Hseq, Hlen; reflexivity|].
  split; [rewrite Htot, Hlen; reflexivity|].
  split; [rewrite Hidx; reflexivity|].
  split; [rewrite Hidx; reflexivity|].
  split; [exact Hret|].
  split; [exact Hcnt|].
  split; [rewrite Hbob, Hidx; reflexivity|].
  rewrite (Hrest alice), Hidx; [reflexivity | discriminate].
Defined.

Lemma visible_count_witness :
  let call := SubmitRating alice 5 [] in
  reachable vault accept_all initial ∧
  publicCount (scoreOf initial alice) = 0 ∧
  publicCount (scoreOf (snd (transact vault accept_all (mkEnv bob 10) call initial)) alice) = 1.
Proof.
  cbv zeta.
  assert (Hr : reachable vault accept_all initial) by (by exists []).
  split; [exact Hr|]. split; [reflexivity|].
  destruct (visible_count_and_handles vault accept_all (mkEnv bob 10)
              (SubmitRating alice 5 []) initial alice Hr) as (_ & _ & _ & Hinc).
  rewrite (Hinc alice 5 [] (VRatingId 0) eq_refl eq_refl). reflexivity.
Defined.

(** ** What an operation leaves alone *)

Section Frames.

Variable this : address.
Variable inputVerifier : address → externalEuint32 → bytes → bool.

Local Abbreviation tx := (transact this inputVerifier).

Lemma viewerFlag_submitted env u c s a b :
  viewerFlag (scoreOf (submitted this env u c s) a) b = viewerFlag (scoreOf s a) b.
Proof.
  rewrite scoreOf_submitted. case_decide; subst; trivial. apply viewerFlag_folded.
Qed.

(** X1. A rating for one user touches no other user's aggregate or rating
    index, and it changes no authorisation, whether it returns or reverts. *)
Theorem submit_leaves_others env u c p s u' :
  u' ≠ u →
  let s' := snd (tx env (SubmitRating u c p) s) in
  getEncryptedScore s' u' = getEncryptedScore s u' ∧
  getUserRatings s' u' = getUserRatings s u' ∧
  (∀ a b, isAuthorized s' a b = isAuthorized s a b).
Proof.
  intros Hne. cbv zeta. rewrite transact_submit.
  destruct (submitRating_path this inputVerifier env u c p s);
    cbn [fst snd]; try easy.
  unfold getEncryptedScore, getUserRatings, isAuthorized.
  rewrite scoreOf_submitted, ratingsOf_submitted. repeat case_decide; try easy.
  repeat split. intros a b. by rewrite viewerFlag_submitted.
Qed.

(** X2. Granting and revoking change nothing but the one flag: the id
    counter, the stored ratings, every aggregate and every rating index stay
    as they are, and so does the authorisation of every other pair. *)
Theorem authorization_leaves_ratings env call v s :
  call = AuthorizeViewer v ∨ call = RevokeViewer v →
  let s' := snd (tx env call s) in
  totalRatings s' = totalRatings s ∧
  ratings s' = ratings s ∧
  (∀ u, getEncryptedScore s' u = getEncryptedScore s u) ∧
  (∀ u, getUserRatings s' u = getUserRatings s u) ∧
  (∀ a b, (a, b) ≠ (msg_sender env, v) → isAuthorized s' a b = isAuthorized s a b).
Proof.
  intros Hcall. cbv zeta.
  destruct (transact_effect this inputVerifier env call s) as [| | |v0|v0];
    cbn [snd]; try easy; try (by destruct Hcall).
  - assert (v0 = v) as -> by (destruct Hcall; congruence).
    repeat split; trivial.
    + intros u. unfold getEncryptedScore. rewrite scoreOf_authorized. by case_decide.
    + intros a b Hab. unfold isAuthorized. destruct (a =? b); trivial.
      rewrite scoreOf_authorized. case_decide; subst; trivial.
      rewrite viewerFlag_with_viewer. case_decide; subst; trivial. by destruct Hab.
  - assert (v0 = v) as -> by (destruct Hcall; congruence).
    repeat split; trivial.
    + intros u. unfold getEncryptedScore. rewrite scoreOf_revoked. by case_decide.
    + intros a b Hab. unfold isAuthorized. destruct (a =? b); trivial.
      rewrite scoreOf_revoked. case_decide; subst; trivial.
      rewrite viewerFlag_with_viewer. case_decide; subst; trivial. by destruct Hab.
Qed.

End Frames.

(** ** Grants over time *)

Section GrantsOverTime.

Variable this : address.
Variable inputVerifier : address → externalEuint32 → bytes → bool.

Local Abbreviation tx := (transact this inputVerifier).
Local Abbreviation exec := (run this inputVerifier).

Lemma grants_transact env call s h a :
  (h, a) ∈ grants s → (h, a) ∈ grants (snd (tx env call s)).
Proof.
  intros Hin.
  destruct (transact_effect this inputVerifier env call s); cbn [snd]; trivial.
  - cbn [submitted grants]. on_grants.
  - cbn [authorized grants]. on_grants.
Qed.

Lemma grants_run txs s h a : (h, a) ∈ grants s → (h, a) ∈ grants (exec s txs).
Proof.
  revert s. induction txs as [|[env call] txs IH]; intros s Hin; cbn; trivial.
  by apply IH, grants_transact.
Qed.

Lemma decrypt_Some g h a x :
  FHE.decrypt g h a = Some x ↔ (h, a) ∈ g ∧ x = FHE.cleartext32 h.
Proof.
  unfold FHE.decrypt. case_decide; split; try easy.
  - by intros [= <-].
  - by intros [_ ->].
Qed.

(** X3. No transaction takes a grant away: whoever can decrypt a handle can
    still decrypt it, to the same value, after any further transactions. *)
Theorem decryption_is_never_withdrawn s txs h a x :
  FHE.decrypt (grants s) h a = Some x →
  FHE.decrypt (grants (exec s txs)) h a = Some x.
Proof.
  rewrite !decrypt_Some. intros [Hin ->]. split; trivial. by apply grants_run.
Qed.

(** X4. Revocation does not reach the capability: once [authorizeViewer]
    has returned, the viewer decrypts the total and count handles the user
    had at that time after any further transactions, the user's
    [revokeViewer] among them. *)
Theorem revoked_viewer_keeps_old_handles env v s txs :
  fst (tx env (AuthorizeViewer v) s) = Return VUnit →
  let '(total, count, _) := getEncryptedScore s (msg_sender env) in
  let s' := exec (snd (tx env (AuthorizeViewer v) s)) txs in
  FHE.decrypt (grants s') total v = Some (FHE.cleartext32 total) ∧
  FHE.decrypt (grants s') count v = Some (FHE.cleartext32 count).
Proof.
  rewrite transact_authorize. unfold getEncryptedScore.
  destruct (authorizeViewer_path env v s); cbn [fst snd]; try easy.
  intros _. split; apply decrypt_granted, grants_run; cbn [authorized grants]; on_grants.
Qed.

(** X5. What a returned submission grants on the score handle itself: the
    sender and the contract can decrypt it; the rated user is granted it
    when it is their first rating, where it becomes their total; and on any
    later rating the rated user, unless already granted that handle before,
    is not granted it. *)
Theorem score_handle_grants env u c p s :
  fst (tx env (SubmitRating u c p) s) = Return (VRatingId (totalRatings s)) →
  let s' := snd (tx env (SubmitRating u c p) s) in
  FHE.decrypt (grants s') (Verified c) (msg_sender env) = Some (c mod 2 ^ 32) ∧
  FHE.decrypt (grants s') (Verified c) this = Some (c mod 2 ^ 32) ∧
  (publicCount (scoreOf s u) = 0 →
   encryptedTotalScore (scoreOf s' u) = Verified c ∧
   FHE.decrypt (grants s') (Verified c) u = Some (c mod 2 ^ 32)) ∧
  (publicCount (scoreOf s u) ≠ 0 → u ≠ this → (Verified c, u) ∉ grants s →
   FHE.decrypt (grants s') (Verified c) u = None).
Proof.
  rewrite transact_submit.
  destruct (submitRating_path this inputVerifier env u c p s) as [| | | | |Hz Hs Ht Hv Hc];
    cbn [fst snd]; try easy.
  intros _. rewrite scoreOf_submitted. case_decide; [|easy].
  cbn [submitted grants]. unfold folded.
  destruct (N.eqb_spec (publicCount (scoreOf s u)) 0) as [E|E];
    cbn [encryptedTotalScore encryptedCount].
  - repeat split; try easy; apply decrypt_granted; on_grants.
  - split; [apply decrypt_granted; on_grants|].
    split; [apply decrypt_granted; on_grants|].
    split; [easy|]. intros _ Hthis Hold. unfold FHE.decrypt, FHE.add, FHE.asEuint32.
    case_decide as Hin; trivial. exfalso.
    rewrite !elem_of_cons in Hin.
    destruct Hin as [Hin|[Hin|[Hin|[Hin|[Hin|[Hin|Hin]]]]]]; try easy; congruence.
Qed.

End GrantsOverTime.

(** ** The rating log *)

Section RatingLog.

Variable this : address.
Variable inputVerifier : address → externalEuint32 → bytes → bool.

Local Abbreviation tx := (transact this inputVerifier).
Local Abbreviation exec := (run this inputVerifier).

Lemma totalRatings_transact env call s :
  totalRatings s ≤ totalRatings (snd (tx env call s)).
Proof.
  destruct (transact_effect this inputVerifier env call s); cbn; lia.
Qed.

Lemma ratingAt_submitted env u c s i :
  ratingAt (submitted this env u c s) i =
  if decide (i = totalRatings s)
  then mkRating (msg_sender env) (Verified c) (block_timestamp env)
  else ratingAt s i.
Proof.
  unfold ratingAt at 1. cbn [submitted ratings].
  case_decide as E; [subst; by rewrite lookup_insert_eq|].
  by rewrite lookup_insert_ne.
Qed.

(** A stored rating is never written again. *)
Lemma ratingAt_transact env call s i :
  i < totalRatings s → ratingAt (snd (tx env call s)) i = ratingAt s i.
Proof.
  intros Hi.
  destruct (transact_effect this inputVerifier env call s); cbn [snd]; trivial.
  rewrite ratingAt_submitted. case_decide; [lia|done].
Qed.

Lemma ratingAt_run txs s i :
  i < totalRatings s → ratingAt (exec s txs) i = ratingAt s i.
Proof.
  revert s. induction txs as [|[env call] txs IH]; intros s Hi; cbn; trivial.
  rewrite IH; [by apply ratingAt_transact|].
  pose proof (totalRatings_transact env call s). lia.
Qed.

(** X6. A rating, once stored, stays as it was stored: after a submission
    has returned an id, and whatever transactions follow, the record under
    that id holds the sender, the verified score handle and the block time of
    the submission, and [getRating] returns them (a sender is never the zero
    address). *)
Theorem stored_rating_is_permanent env u c p s i txs :
  fst (tx env (SubmitRating u c p) s) = Return (VRatingId i) →
  msg_sender env ≠ address_zero →
  let s' := exec (snd (tx env (SubmitRating u c p) s)) txs in
  getRating i s' =
  (Return (msg_sender env, Verified c, block_timestamp env), s').
Proof.
  rewrite transact_submit. intros Hret Hsender. cbv zeta.
  destruct (submitRating_path this inputVerifier env u c p s);
    cbn [fst snd] in *; try easy.
  injection Hret as <-.
  assert (Hat : ratingAt (exec (submitted this env u c s) txs) (totalRatings s) =
                mkRating (msg_sender env) (Verified c) (block_timestamp env)).
  { rewrite ratingAt_run by (cbn; lia). rewrite ratingAt_submitted. by case_decide. }
  destruct (getRating_path (totalRatings s) (exec (submitted this env u c s) txs))
    as [Hz|Hz]; rewrite Hat in *; [by destruct Hsender|done].
Qed.

Lemma indexed_initial : indexed initial.
Proof.
  assert (Hr : ∀ u, ratingsOf initial u = []) by done.
  split; intros *; rewrite ?Hr; cbn [initial totalRatings ratings];
    try (rewrite elem_of_nil); try easy; try lia. constructor.
Qed.

Lemma indexed_submitted env u c s :
  indexed s → indexed (submitted this env u c s).
Proof.
  intros [Hsb Hsc Hb Hc Hd Hn].
  assert (Hfresh : ∀ u0, totalRatings s ∉ ratingsOf s u0).
  { intros u0 Hin. apply Hb in Hin. lia. }
  split.
  - intros i Hi. cbn [submitted ratings totalRatings] in *.
    rewrite lookup_insert_ne by lia. apply Hsb. lia.
  - intros i Hi. cbn [submitted ratings totalRatings] in *.
    destruct (decide (i = totalRatings s)) as [->|Hne].
    + by rewrite lookup_insert_eq.
    + rewrite lookup_insert_ne by done. apply Hsc. lia.
  - intros u0 i. rewrite ratingsOf_submitted. cbn [submitted totalRatings].
    case_decide; subst.
    + rewrite elem_of_app, list_elem_of_singleton. intros [Hin| ->]; [|lia].
      apply Hb in Hin. lia.
    + intros Hin. apply Hb in Hin. lia.
  - intros i Hi. cbn [submitted totalRatings] in Hi.
    destruct (decide (i = totalRatings s)) as [->|Hne].
    + exists u. rewrite ratingsOf_submitted. case_decide; [|done].
      rewrite elem_of_app, list_elem_of_singleton. by right.
    + destruct (Hc i) as [u0 Hu0]; [lia|]. exists u0.
      rewrite ratingsOf_submitted. case_decide; subst; trivial.
      rewrite elem_of_app. by left.
  - intros u1 u2 i. rewrite !ratingsOf_submitted.
    repeat case_decide; subst; trivial;
      rewrite ?elem_of_app, ?list_elem_of_singleton.
    + intros [H1| ->] H2; [by apply (Hd _ _ i)|]. by destruct (Hfresh u2).
    + intros H1 [H2| ->]; [by apply (Hd _ _ i)|]. by destruct (Hfresh u1).
    + apply Hd.
  - intros u0. rewrite ratingsOf_submitted. case_decide; subst; [|apply Hn].
    apply NoDup_app. split; [apply Hn|]. split; [|apply NoDup_singleton].
    intros i Hin ->%list_elem_of_singleton. by destruct (Hfresh u).
Qed.

Lemma indexed_transact env call s :
  indexed s → indexed (snd (tx env call s)).
Proof.
  intros H. destruct (transact_effect this inputVerifier env call s);
    cbn [snd]; trivial.
  - by apply indexed_submitted.
  - destruct H. by split.
  - destruct H. by split.
Qed.

Lemma indexed_run txs s : indexed s → indexed (exec s txs).
Proof.
  revert s. induction txs as [|[env call] txs IH]; intros s H; cbn; trivial.
  by apply IH, indexed_transact.
Qed.

(** X7. The per-user indexes partition the assigned ids: after any history,
    every id below the id counter is listed under exactly one user, no id at
    or above it is listed or stored, and no index lists an id twice. *)
Theorem indexes_partition_ids txs i :
  let s := exec initial txs in
  (i < totalRatings s →
   is_Some (ratings s !! i) ∧
   ∃ u, i ∈ getUserRatings s u ∧ ∀ u', i ∈ getUserRatings s u' → u' = u) ∧
  (totalRatings s ≤ i →
   ratings s !! i = None ∧ ∀ u, i ∉ getUserRatings s u) ∧
  (∀ u, NoDup (getUserRatings s u)).
Proof.
  cbv zeta. unfold getUserRatings.
  destruct (indexed_run txs initial indexed_initial) as [Hsb Hsc Hb Hc Hd Hn].
  repeat split; auto.
  - destruct (Hc i) as [u Hu]; trivial. exists u. split; trivial.
    intros u' Hu'. by apply (Hd _ _ i).
  - intros u Hin. apply Hb in Hin. lia.
Qed.

(** Every stored rating of a history with non-zero senders names its rater. *)
Lemma raters_known_run txs s :
  senders_nonzero txs →
  (∀ i, i < totalRatings s → rater (ratingAt s i) ≠ address_zero) →
  ∀ i, i < totalRatings (exec s txs) → rater (ratingAt (exec s txs) i) ≠ address_zero.
Proof.
  revert s. induction txs as [|[env call] txs IH]; intros s Hnz Hs; cbn; trivial.
  apply Forall_cons in Hnz as [Hhd Htl]. apply IH; trivial.
  destruct (transact_effect this inputVerifier env call s); cbn [snd]; trivial.
  intros i Hi. cbn [submitted totalRatings] in Hi.
  rewrite ratingAt_submitted. case_decide; [done|]. apply Hs. lia.
Qed.

(** X8. [getRating] tells assigned ids from the others: after a history
    whose senders are non-zero, it returns the stored record for every id
    below the id counter and fails with NotFound for every other id, in both
    cases without changing the state. *)
Theorem get_rating_found_iff_assigned txs i :
  senders_nonzero txs →
  let s := exec initial txs in
  getRating i s =
  if decide (i < totalRatings s)
  then (Return (rater (ratingAt s i), encryptedScore (ratingAt s i),
                timestamp (ratingAt s i)), s)
  else (Revert NotFound, s).
Proof.
  intros Hnz. cbv zeta.
  pose proof (raters_known_run txs initial Hnz) as Hknown.
  pose proof (stored_below _ (indexed_run txs initial indexed_initial) i) as Hnone.
  destruct (getRating_path i (exec initial txs)) as [Hz|Hz]; case_decide as Hi; trivial.
  - destruct (Hknown ltac:(cbn; lia) i Hi Hz).
  - destruct Hz. unfold ratingAt. rewrite Hnone by lia. done.
Qed.

End RatingLog.

(** ** The event log *)

Section EventLog.

Variable this : address.
Variable inputVerifier : address → externalEuint32 → bytes → bool.

Local Abbreviation tx := (transact this inputVerifier).
Local Abbreviation exec := (run this inputVerifier).
Local Abbreviation log_of := (run_log this inputVerifier).

(** A transaction appends at most one event to the log. *)
Lemma events_transact env call s :
  ∃ new, events (snd (tx env call s)) = events s ++ new ∧
    rating_events new =
      match emitted_rating (env, call, fst (tx env call s)) with
      | Some r => [r]
      | None => []
      end ∧
    ∀ u v st, foldl (told_status u v) st new =
              viewerFlag (scoreOf (snd (tx env call s)) u) v
              ∨ (foldl (told_status u v) st new = st ∧
                 viewerFlag (scoreOf (snd (tx env call s)) u) v = viewerFlag (scoreOf s u) v).
Proof.
  destruct (transact_effect this inputVerifier env call s) as [call| | |v0|v0];
    cbn [fst snd].
  - exists []. rewrite app_nil_r. repeat split; [by destruct call|]. intros; by right.
  - exists []. rewrite app_nil_r. repeat split. intros; by right.
  - eexists. split; [reflexivity|]. split; [reflexivity|].
    intros a b st. right. split; [done|]. apply viewerFlag_submitted.
  - eexists. split; [reflexivity|]. split; [reflexivity|].
    intros a b st. cbn [foldl told_status]. rewrite scoreOf_authorized.
    destruct (N.eqb_spec (msg_sender env) a) as [<-|Ha]; case_decide; try congruence;
      cbn [andb]; [|by right].
    rewrite viewerFlag_with_viewer.
    destruct (N.eqb_spec v0 b) as [<-|Hb]; case_decide; try congruence; [by left|by right].
  - eexists. split; [reflexivity|]. split; [reflexivity|].
    intros a b st. cbn [foldl told_status]. rewrite scoreOf_revoked.
    destruct (N.eqb_spec (msg_sender env) a) as [<-|Ha]; case_decide; try congruence;
      cbn [andb]; [|by right].
    rewrite viewerFlag_with_viewer.
    destruct (N.eqb_spec v0 b) as [<-|Hb]; case_decide; try congruence; [by left|by right].
Qed.

Lemma rating_events_app l k : rating_events (l ++ k) = rating_events l ++ rating_events k.
Proof. apply omap_app. Qed.

Lemma omap_cons_match {A B} (f : A → option B) x l :
  omap f (x :: l) = match f x with Some y => y :: omap f l | None => omap f l end.
Proof. reflexivity. Qed.

Lemma rating_events_run txs s :
  rating_events (events (exec s txs)) =
  rating_events (events s) ++ omap emitted_rating (log_of s txs).
Proof.
  revert s. induction txs as [|[env call] txs IH]; intros s; cbn [run run_log].
  - by rewrite app_nil_r.
  - destruct (events_transact env call s) as (new & Hev & Hnew & _).
    rewrite IH, Hev, rating_events_app, Hnew, <- app_assoc. f_equal.
    rewrite omap_cons_match. by destruct (emitted_rating _).
Qed.

Lemma emitted_ids log : (omap emitted_rating log).*1.*1.*1 = assigned_ids log.
Proof.
  induction log as [|[[env call] out] log IH]; [done|].
  rewrite assigned_ids_cons, omap_cons_match.
  destruct call; cbn; trivial. destruct out as [[]|]; cbn; trivial. by rewrite <- IH.
Qed.

(** X9. The event log records the ratings: after any history from
    deployment the [RatingSubmitted] events are, in order, those of the
    returned submissions, each with the id returned, the rated user, the
    sender and the block time; so their ids count 0, 1, 2, ... and there are
    as many as the id counter says. *)
Theorem rating_events_match_submissions txs :
  let s := exec initial txs in
  let evs := rating_events (events s) in
  evs = omap emitted_rating (log_of initial txs) ∧
  evs.*1.*1.*1 = N.of_nat <$> seq 0 (length evs) ∧
  N.of_nat (length evs) = totalRatings s.
Proof.
  cbv zeta. rewrite rating_events_run. cbn [initial events rating_events omap list_omap app].
  split; [done|].
  destruct (counter_from this inputVerifier initial txs) as [Hids Htot].
  cbn [initial totalRatings] in Hids, Htot.
  assert (Hlen : length (omap emitted_rating (log_of initial txs)) =
                 length (assigned_ids (log_of initial txs))).
  { by rewrite <- emitted_ids, !length_fmap. }
  rewrite emitted_ids, Hlen. split; [|lia].
  rewrite Hids at 1. apply list_fmap_ext. intros _ k _. cbn. lia.
Qed.

Lemma last_status_run txs s u v :
  viewerFlag (scoreOf s u) v = last_status u v (events s) →
  viewerFlag (scoreOf (exec s txs) u) v = last_status u v (events (exec s txs)).
Proof.
  revert s. induction txs as [|[env call] txs IH]; intros s Hs; cbn [run]; trivial.
  apply IH. destruct (events_transact env call s) as (new & Hev & _ & Hst).
  unfold last_status in *. rewrite Hev, foldl_app, <- Hs.
  destruct (Hst u v (viewerFlag (scoreOf s u) v)) as [H|[H1 H2]]; congruence.
Qed.

(** X10. The event log tells the authorisation table: after any history
    from deployment, a viewer other than the user is authorised exactly when
    the last [ViewerAuthorized] or [ViewerRevoked] event of the pair is a
    [ViewerAuthorized]. *)
Theorem events_tell_authorization txs u v :
  let s := exec initial txs in
  isAuthorized s u v = (u =? v) || last_status u v (events s).
Proof.
  cbv zeta. unfold isAuthorized. destruct (u =? v); [done|]. cbn [orb].
  by apply last_status_run.
Qed.

(** X11. Only a rated user has viewers: after any history from deployment,
    if [isAuthorized] answers true for a viewer other than the user, then the
    viewer is not the zero address and the user has a public count above 0
    and both aggregate handles. *)
Theorem authorized_viewer_has_something_to_view txs u v :
  let s := exec initial txs in
  let '(total, count, visible) := getEncryptedScore s u in
  isAuthorized s u v = true → u ≠ v →
  v ≠ address_zero ∧ visible ≠ 0 ∧ total ≠ Uninit ∧ count ≠ Uninit.
Proof.
  cbv zeta. unfold getEncryptedScore, isAuthorized.
  pose proof (consistent_run this inputVerifier txs initial (consistent_initial this))
    as Hcons.
  destruct (N.eqb_spec u v); [easy|]. intros Hf _.
  destruct (viewers_valid _ _ Hcons u v Hf) as (Hz & _ & Hc).
  destruct (handles_present _ _ Hcons u Hc). easy.
Qed.

Lemma sum_scores_bounds scores :
  Forall (fun c => 1 ≤ c ≤ 5) scores →
  N.of_nat (length scores) ≤ sum_scores scores ≤ 5 * N.of_nat (length scores).
Proof.
  induction 1 as [|c scores Hc _ IH]; cbn [sum_scores foldr length]; [lia|].
  fold (sum_scores scores). lia.
Qed.

(** X12. Scores checked at the boundary keep the aggregate exact: when
    every score submitted for a subject lies in 1..5, as the form, the hook
    and the command-line task require before encrypting, the total lies
    between [N] and [5 N] for [N] ratings, and with at most 858993459 ratings
    the 32-bit total and count hold the sum and [N] without wrapping. *)
Theorem checked_scores_do_not_wrap txs subject :
  let s := exec initial txs in
  let scores := (submissions subject (log_of initial txs)).*2 in
  let n := N.of_nat (length scores) in
  Forall (fun c => 1 ≤ c ≤ 5) scores →
  n ≤ sum_scores scores ≤ 5 * n ∧
  (n ≤ 858993459 →
   FHE.cleartext32 (encryptedTotalScore (scoreOf s subject)) = sum_scores scores ∧
   FHE.cleartext32 (encryptedCount (scoreOf s subject)) = n).
Proof.
  cbv zeta. intros Hrange. pose proof (sum_scores_bounds _ Hrange) as Hb.
  split; [exact Hb|]. intros Hn.
  destruct (aggregate_from this inputVerifier initial txs subject (consistent_initial this))
    as (_ & Ht & Hc).
  change (scoreOf initial subject) with zeroUserScore in *.
  cbn [zeroUserScore encryptedTotalScore encryptedCount FHE.cleartext32] in *.
  rewrite N.add_0_l in Ht, Hc.
  rewrite Ht, Hc.
  assert (H32 : (2 ^ 32 = 4294967296)%N) by reflexivity.
  split; apply N.mod_small; lia.
Qed.

End EventLog.

(** ** The front end's viewer list *)

Section ViewerList.

Implicit Types (m : list (N * Hook.Status)) (e : Hook.LogEvent).

Lemma get_set k x m k' :
  Hook.get (Hook.set k x m) k' = if decide (k' = k) then Some x else Hook.get m k'.
Proof.
  induction m as [|[k0 x0] m IH]; cbn [Hook.set Hook.get].
  - destruct (N.eqb_spec k k'); case_decide; congruence.
  - destruct (N.eqb_spec k0 k) as [->|Hk]; cbn [Hook.get].
    + destruct (N.eqb_spec k k'); case_decide; congruence.
    + destruct (N.eqb_spec k0 k'); [case_decide; congruence|done].
Qed.

Lemma set_keys k x m :
  (Hook.set k x m).*1 = if decide (k ∈ m.*1) then m.*1 else m.*1 ++ [k].
Proof.
  induction m as [|[k0 x0] m IH]; cbn [Hook.set].
  - case_decide as H; [by apply elem_of_nil in H|done].
  - destruct (N.eqb_spec k0 k) as [->|Hk]; rewrite !fmap_cons; cbn [fst].
    + clear IH. case_decide as H; [done|]. destruct H. apply list_elem_of_here.
    + rewrite IH. repeat case_decide; trivial; rewrite elem_of_cons in *; naive_solver.
Qed.

Lemma set_NoDup k x m : NoDup m.*1 → NoDup (Hook.set k x m).*1.
Proof.
  intros H. rewrite set_keys. case_decide as Hin; trivial.
  apply NoDup_app. split; trivial. split; [|apply NoDup_singleton].
  intros k' Hk' ->%list_elem_of_singleton. done.
Qed.

Lemma get_elem_of m k x : NoDup m.*1 → (k, x) ∈ m ↔ Hook.get m k = Some x.
Proof.
  induction m as [|[k0 x0] m IH]; cbn [Hook.get]; intros Hnd.
  - split; [by intros ?%elem_of_nil|done].
  - rewrite fmap_cons in Hnd. cbn [fst] in Hnd.
    apply NoDup_cons in Hnd as [Hk0 Hnd]. rewrite elem_of_cons.
    destruct (N.eqb_spec k0 k) as [->|Hk].
    + split; [|intros [= ->]; by left].
      intros [[= ->]|Hin]; trivial. destruct Hk0.
      apply list_elem_of_fmap. by exists (k, x).
    + rewrite <- IH by done. split; [|by right]. intros [[= -> ->]|Hin]; easy.
Qed.

(** What one round of either loop does to the status of a viewer. *)
Lemma get_record flag m e k :
  Hook.get (Hook.record flag m e) k =
  if decide (k = Hook.args_viewer e) then
    match Hook.get m k with
    | Some current =>
        if Hook.blockNumber current <? Hook.event_blockNumber e
        then Some (Hook.mkStatus flag (Hook.event_blockNumber e))
        else Some current
    | None => Some (Hook.mkStatus flag (Hook.event_blockNumber e))
    end
  else Hook.get m k.
Proof.
  unfold Hook.record. cbv zeta. case_decide as E.
  - subst k. destruct (Hook.get m _) as [cur|] eqn:G.
    + destruct (_ <? _); [|done]. rewrite get_set. by case_decide.
    + rewrite get_set. by case_decide.
  - destruct (Hook.get m (Hook.args_viewer e)) as [cur|].
    + destruct (_ <? _); [|done]. rewrite get_set. by case_decide.
    + rewrite get_set. by case_decide.
Qed.

Lemma record_NoDup flag m e : NoDup m.*1 → NoDup (Hook.record flag m e).*1.
Proof.
  intros H. unfold Hook.record. cbv zeta.
  destruct (Hook.get m _) as [cur|]; [destruct (_ <? _); trivial|]; by apply set_NoDup.
Qed.

Lemma foldl_record_NoDup flag evs m :
  NoDup m.*1 → NoDup (foldl (Hook.record flag) m evs).*1.
Proof.
  revert m. induction evs as [|e evs IH]; intros m H; cbn; trivial.
  by apply IH, record_NoDup.
Qed.

(** After the loop over the authorised events: a viewer has a status exactly
    when it has an event, and the status is authorised at the highest block
    of its events. *)
Lemma authorized_loop A v :
  match Hook.get (foldl (Hook.record true) [] A) v with
  | Some st =>
      Hook.authorized st = true ∧
      (∃ a, a ∈ A ∧ Hook.args_viewer a = v ∧
            Hook.event_blockNumber a = Hook.blockNumber st) ∧
      (∀ a, a ∈ A → Hook.args_viewer a = v →
            Hook.event_blockNumber a ≤ Hook.blockNumber st)
  | None => ∀ a, a ∈ A → Hook.args_viewer a ≠ v
  end.
Proof.
  induction A as [|e A IH] using rev_ind.
  - cbn. by intros a ?%elem_of_nil.
  - rewrite foldl_snoc, get_record. case_decide as E.
    + subst v. destruct (Hook.get _ _) as [cur|].
      * destruct IH as (Hauth & (a & Ha & Hv & Hb) & Hmax).
        destruct (N.ltb_spec (Hook.blockNumber cur) (Hook.event_blockNumber e)).
        -- cbn. split; [done|]. split.
           ++ exists e. rewrite elem_of_app, list_elem_of_singleton. auto.
           ++ intros a' [Ha'|Ha']%elem_of_app Hv'.
              ** specialize (Hmax a' Ha' Hv'). lia.
              ** apply list_elem_of_singleton in Ha' as ->. lia.
        -- split; [done|]. split.
           ++ exists a. rewrite elem_of_app. auto.
           ++ intros a' [Ha'|Ha']%elem_of_app Hv'; [by apply Hmax|].
              apply list_elem_of_singleton in Ha' as ->. lia.
      * cbn. split; [done|]. split.
        -- exists e. rewrite elem_of_app, list_elem_of_singleton. auto.
        -- intros a' [Ha'|Ha']%elem_of_app Hv'; [by destruct (IH a')|].
           apply list_elem_of_singleton in Ha' as ->. lia.
    + destruct (Hook.get _ _) as [cur|].
      * destruct IH as (Hauth & (a & Ha & Hv & Hb) & Hmax).
        split; [done|]. split.
        -- exists a. rewrite elem_of_app. auto.
        -- intros a' [Ha'|Ha']%elem_of_app Hv'; [by apply Hmax|].
           apply list_elem_of_singleton in Ha' as ->. congruence.
      * intros a' [Ha'|Ha']%elem_of_app; [by apply IH|].
        apply list_elem_of_singleton in Ha' as ->. congruence.
Qed.

(** After the loop over the revoked events: a viewer is still authorised, at
    block [b], exactly when it was so before the loop and none of its revoked
    events has a higher block. *)
Lemma revoked_loop m0 R v b :
  Hook.get (foldl (Hook.record false) m0 R) v = Some (Hook.mkStatus true b) ↔
  Hook.get m0 v = Some (Hook.mkStatus true b) ∧
  ∀ r, r ∈ R → Hook.args_viewer r = v → Hook.event_blockNumber r ≤ b.
Proof.
  induction R as [|e R IH] using rev_ind.
  - cbn. split; [|by intros [? _]]. intros H. split; [done|]. by intros r ?%elem_of_nil.
  - rewrite foldl_snoc, get_record. case_decide as E.
    + subst v. destruct (Hook.get (foldl _ _ _) _) as [cur|] eqn:G.
      * destruct (N.ltb_spec (Hook.blockNumber cur) (Hook.event_blockNumber e)) as [Hlt|Hge].
        -- split; [done|]. intros [H0 Hall]. exfalso.
           assert (Hcur : cur = Hook.mkStatus true b).
           { assert (Some cur = Some (Hook.mkStatus true b)) as [= ->]; [|done].
             apply IH. split; [done|]. intros r Hr. apply Hall, elem_of_app. auto. }
           subst cur. cbn in Hlt.
           specialize (Hall e ltac:(rewrite elem_of_app, list_elem_of_singleton; auto) eq_refl).
           lia.
        -- split.
           ++ intros Hcur. pose proof Hcur as [= ->].
              apply IH in Hcur as [H0 Hall]. split; [done|].
              intros r [Hr|Hr]%elem_of_app Hv; [by apply Hall|].
              apply list_elem_of_singleton in Hr as ->. by cbn in Hge.
           ++ intros [H0 Hall]. apply IH. split; [done|].
              intros r Hr. apply Hall, elem_of_app. auto.
      * split; [done|]. intros [H0 Hall].
        assert (None = Some (Hook.mkStatus true b)); [|done].
        apply IH. split; [done|]. intros r Hr. apply Hall, elem_of_app. auto.
    + rewrite IH. split; intros [H0 Hall]; (split; [done|]).
      * intros r [Hr|Hr]%elem_of_app Hv; [by apply Hall|].
        apply list_elem_of_singleton in Hr as ->. congruence.
      * intros r Hr. apply Hall, elem_of_app. auto.
Qed.

End ViewerList.

Section ViewerListResult.

Implicit Types (A R : list Hook.LogEvent).

Lemma viewerStatus_NoDup A R : NoDup (Hook.viewerStatus A R).*1.
Proof. unfold Hook.viewerStatus. apply foldl_record_NoDup, foldl_record_NoDup, NoDup_nil_2. Qed.

Lemma elem_of_currentlyAuthorized A R v :
  v ∈ Hook.currentlyAuthorized A R ↔
  ∃ b, Hook.get (Hook.viewerStatus A R) v = Some (Hook.mkStatus true b).
Proof.
  unfold Hook.currentlyAuthorized. rewrite list_elem_of_fmap. split.
  - intros ([k [a b]] & -> & [Ha Hin]%list_elem_of_filter). cbn in Ha. subst a.
    exists b. by apply get_elem_of; [apply viewerStatus_NoDup|].
  - intros [b Hb]. exists (v, Hook.mkStatus true b). split; [done|].
    apply list_elem_of_filter. split; [done|].
    by apply get_elem_of; [apply viewerStatus_NoDup|].
Qed.

(** X13. What the front end lists: a viewer is on the list exactly when one
    of its [ViewerAuthorized] events has a block number that none of its
    [ViewerRevoked] events exceeds, so on equal block numbers the
    authorisation wins; and no viewer is listed twice. *)
Theorem viewer_list_characterized A R v :
  (v ∈ Hook.currentlyAuthorized A R ↔
   ∃ a, a ∈ A ∧ Hook.args_viewer a = v ∧
        ∀ r, r ∈ R → Hook.args_viewer r = v →
             Hook.event_blockNumber r ≤ Hook.event_blockNumber a) ∧
  NoDup (Hook.currentlyAuthorized A R).
Proof.
  split.
  - rewrite elem_of_currentlyAuthorized. unfold Hook.viewerStatus.
    pose proof (authorized_loop A v) as HA. split.
    + intros [b [Hb Hall]%revoked_loop]. rewrite Hb in HA.
      destruct HA as (_ & (a & Ha & Hv & Hblk) & _). exists a.
      repeat split; trivial. intros r Hr Hrv. rewrite Hblk. by apply Hall.
    + intros (a & Ha & Hv & Hall).
      destruct (Hook.get _ v) as [[auth b]|] eqn:G; [|by destruct (HA a)].
      destruct HA as (Hauth & _ & Hmax). cbn in Hauth, Hmax. subst auth.
      exists b. apply revoked_loop. split; [done|].
      intros r Hr Hrv. specialize (Hall r Hr Hrv). specialize (Hmax a Ha Hv). lia.
  - unfold Hook.currentlyAuthorized.
    eapply sublist_NoDup; [apply (viewerStatus_NoDup A R)|].
    apply fmap_sublist, sublist_filter.
Qed.

End ViewerListResult.

(** ** The viewer list against the contract *)

Section ViewerListAndContract.

Variable this : address.
Variable inputVerifier : address → externalEuint32 → bytes → bool.

Local Abbreviation exec := (run this inputVerifier).

Implicit Types (chain : list (N * Event)).

Lemma authorizedFilter_snoc u chain b e :
  Hook.authorizedFilter u (chain ++ [(b, e)]) =
  Hook.authorizedFilter u chain ++
  match e with
  | ViewerAuthorized u0 v0 => if u0 =? u then [Hook.mkLogEvent v0 b] else []
  | _ => []
  end.
Proof.
  unfold Hook.authorizedFilter. rewrite omap_app. f_equal.
  destruct e as [| u0 v0 |]; cbn; trivial. by destruct (u0 =? u).
Qed.

Lemma revokedFilter_snoc u chain b e :
  Hook.revokedFilter u (chain ++ [(b, e)]) =
  Hook.revokedFilter u chain ++
  match e with
  | ViewerRevoked u0 v0 => if u0 =? u then [Hook.mkLogEvent v0 b] else []
  | _ => []
  end.
Proof.
  unfold Hook.revokedFilter. rewrite omap_app. f_equal.
  destruct e as [| |u0 v0]; cbn; trivial. by destruct (u0 =? u).
Qed.

Lemma authorizedFilter_block u chain a :
  a ∈ Hook.authorizedFilter u chain → Hook.event_blockNumber a ∈ chain.*1.
Proof.
  unfold Hook.authorizedFilter. rewrite list_elem_of_omap.
  intros ([b e] & Hin & Hf). apply list_elem_of_fmap. exists (b, e). split; [|done].
  destruct e as [| u0 v0 |]; cbn in Hf; try done.
  destruct (u0 =? u); [|done]. by injection Hf as <-.
Qed.

Lemma revokedFilter_block u chain r :
  r ∈ Hook.revokedFilter u chain → Hook.event_blockNumber r ∈ chain.*1.
Proof.
  unfold Hook.revokedFilter. rewrite list_elem_of_omap.
  intros ([b e] & Hin & Hf). apply list_elem_of_fmap. exists (b, e). split; [|done].
  destruct e as [| |u0 v0]; cbn in Hf; try done.
  destruct (u0 =? u); [|done]. by injection Hf as <-.
Qed.

Lemma last_status_snoc u v evs e :
  last_status u v (evs ++ [e]) = told_status u v (last_status u v evs) e.
Proof. unfold last_status. by rewrite foldl_snoc. Qed.

(** With one block per event, the events the provider returns single out the
    last event of a pair. *)
Lemma sorted_chain_tells chain u v :
  StronglySorted N.lt chain.*1 →
  (∃ a, a ∈ Hook.authorizedFilter u chain ∧ Hook.args_viewer a = v ∧
        ∀ r, r ∈ Hook.revokedFilter u chain → Hook.args_viewer r = v →
             Hook.event_blockNumber r ≤ Hook.event_blockNumber a) ↔
  last_status u v chain.*2 = true.
Proof.
  induction chain as [|[b e] chain IH] using rev_ind; intros Hsorted.
  - cbn. split; [|done]. by intros (a & ?%elem_of_nil & _).
  - rewrite fmap_app in Hsorted. cbn [fmap list_fmap fst] in Hsorted.
    assert (Hlt : ∀ b', b' ∈ chain.*1 → b' < b).
    { intros b' Hb'. eapply (StronglySorted_app_1_elem_of _ _ _ _ _ Hsorted Hb').
      apply list_elem_of_here. }
    apply StronglySorted_app_1_l in Hsorted. specialize (IH Hsorted).
    rewrite fmap_app. cbn [fmap list_fmap snd]. rewrite last_status_snoc.
    rewrite authorizedFilter_snoc, revokedFilter_snoc.
    destruct e as [i u0 r0 t|u0 v0|u0 v0]; cbn [told_status].
    + rewrite !app_nil_r. exact IH.
    + rewrite app_nil_r.
      destruct (N.eqb_spec u0 u) as [->|Hu]; cbn [andb]; [|rewrite app_nil_r; exact IH].
      destruct (N.eqb_spec v0 v) as [->|Hv].
      * split; [done|]. intros _. exists (Hook.mkLogEvent v b).
        split; [rewrite elem_of_app, list_elem_of_singleton; auto|].
        split; [done|]. intros r Hr _. apply revokedFilter_block, Hlt in Hr. cbn. lia.
      * rewrite <- IH. split; intros (a & Ha & Hav & Hall); exists a.
        -- apply elem_of_app in Ha as [Ha|Ha]; [done|].
           apply list_elem_of_singleton in Ha as ->. by destruct Hv.
        -- split; [|done]. apply elem_of_app. auto.
    + rewrite app_nil_r.
      destruct (N.eqb_spec u0 u) as [->|Hu]; cbn [andb]; [|rewrite app_nil_r; exact IH].
      destruct (N.eqb_spec v0 v) as [->|Hv].
      * split; [|done]. intros (a & Ha & Hav & Hall). exfalso.
        apply authorizedFilter_block, Hlt in Ha.
        specialize (Hall (Hook.mkLogEvent v b)
          ltac:(rewrite elem_of_app, list_elem_of_singleton; auto) eq_refl).
        cbn in Hall. lia.
      * rewrite <- IH. split; intros (a & Ha & Hav & Hall); exists a;
          (split; [done|]); (split; [done|]).
        -- intros r Hr. apply Hall, elem_of_app. auto.
        -- intros r [Hr|Hr]%elem_of_app Hrv; [by apply Hall|].
           apply list_elem_of_singleton in Hr as ->. by destruct Hv.
Qed.

(** X14. With every event in a block of its own, the front end lists what
    the contract holds: after any history from deployment, and whatever
    strictly increasing block numbers the events of the log carry, a viewer
    other than the user is on the user's list exactly when [isAuthorized]
    answers true. *)
Theorem viewer_list_matches_contract txs chain u v :
  chain.*2 = events (exec initial txs) →
  StronglySorted N.lt chain.*1 →
  u ≠ v →
  v ∈ Hook.fetchAuthorizedViewers u chain ↔ isAuthorized (exec initial txs) u v = true.
Proof.
  intros Hlog Hsorted Hne. unfold Hook.fetchAuthorizedViewers, isAuthorized.
  destruct (N.eqb_spec u v); [done|].
  rewrite (last_status_run this inputVerifier txs initial u v) by done.
  rewrite <- Hlog, <- sorted_chain_tells by done.
  apply viewer_list_characterized.
Qed.

(** X15. When an authorisation and the revocation that follows it are mined
    in one block, the front end misses the revocation: the viewer stays on
    the list although [isAuthorized] answers false. *)
Theorem same_block_revocation_is_missed txs chain b u v :
  chain.*2 ++ [ViewerAuthorized u v; ViewerRevoked u v] = events (exec initial txs) →
  (∀ b', b' ∈ chain.*1 → b' ≤ b) →
  u ≠ v →
  v ∈ Hook.fetchAuthorizedViewers u
        (chain ++ [(b, ViewerAuthorized u v); (b, ViewerRevoked u v)]) ∧
  isAuthorized (exec initial txs) u v = false.
Proof.
  intros Hlog Hle Hne. split.
  - unfold Hook.fetchAuthorizedViewers. apply viewer_list_characterized.
    exists (Hook.mkLogEvent v b).
    change [(b, ViewerAuthorized u v); (b, ViewerRevoked u v)]
      with ([(b, ViewerAuthorized u v)] ++ [(b, ViewerRevoked u v)]).
    rewrite app_assoc, authorizedFilter_snoc, revokedFilter_snoc,
      authorizedFilter_snoc, revokedFilter_snoc, N.eqb_refl, !app_nil_r.
    split; [rewrite elem_of_app, list_elem_of_singleton; auto|]. split; [done|].
    intros r [Hr|Hr]%elem_of_app _.
    + apply revokedFilter_block, Hle in Hr. by cbn.
    + apply list_elem_of_singleton in Hr as ->. by cbn.
  - unfold isAuthorized. destruct (N.eqb_spec u v); [done|].
    rewrite (last_status_run this inputVerifier txs initial u v) by done.
    rewrite <- Hlog.
    change [ViewerAuthorized u v; ViewerRevoked u v]
      with ([ViewerAuthorized u v] ++ [ViewerRevoked u v]).
    rewrite app_assoc, last_status_snoc. cbn [told_status]. by rewrite !N.eqb_refl.
Qed.

End ViewerListAndContract.

(** ** Instances of the further properties *)

Lemma submit_leaves_others_witness :
  charlie ≠ alice ∧
  getEncryptedScore
    (snd (transact vault accept_all (mkEnv bob 10) (SubmitRating alice 5 []) initial))
    charlie = getEncryptedScore initial charlie.
Proof.
  assert (H : charlie ≠ alice) by discriminate. split; [exact H|].
  exact (proj1 (submit_leaves_others vault accept_all (mkEnv bob 10) alice 5 []
                  initial charlie H)).
Defined.

Lemma authorization_leaves_ratings_witness :
  let s := run vault accept_all initial (take 1 rating_after_grant) in
  totalRatings (snd (transact vault accept_all (mkEnv alice 11) (AuthorizeViewer dave) s))
  = totalRatings s.
Proof.
  exact (proj1 (authorization_leaves_ratings vault accept_all (mkEnv alice 11)
                  (AuthorizeViewer dave) dave _ (or_introl eq_refl))).
Defined.

Lemma decryption_is_never_withdrawn_witness :
  let s := run vault accept_all initial (take 2 rating_after_grant) in
  let later := [ (mkEnv charlie 12, SubmitRating alice 3 []);
                 (mkEnv alice 13, RevokeViewer dave) ] in
  FHE.decrypt (grants s) (Verified 5) dave = Some 5 ∧
  FHE.decrypt (grants (run vault accept_all s later)) (Verified 5) dave = Some 5.
Proof.
  cbv zeta.
  assert (H : FHE.decrypt
                (grants (run vault accept_all initial (take 2 rating_after_grant)))
                (Verified 5) dave = Some 5) by (vm_compute; reflexivity).
  split; [exact H|].
  exact (decryption_is_never_withdrawn vault accept_all _ _ _ _ _ H).
Defined.

Lemma revoked_viewer_keeps_old_handles_witness :
  let s := run vault accept_all initial (take 1 rating_after_grant) in
  let granted := transact vault accept_all (mkEnv alice 11) (AuthorizeViewer dave) s in
  fst granted = Return VUnit ∧
  FHE.decrypt
    (grants (run vault accept_all (snd granted) [ (mkEnv alice 12, RevokeViewer dave) ]))
    (Verified 5) dave = Some 5.
Proof.
  cbv zeta.
  assert (H : fst (transact vault accept_all (mkEnv alice 11) (AuthorizeViewer dave)
                     (run vault accept_all initial (take 1 rating_after_grant)))
              = Return VUnit) by (vm_compute; reflexivity).
  split; [exact H|].
  exact (proj1 (revoked_viewer_keeps_old_handles vault accept_all (mkEnv alice 11) dave
                  _ [ (mkEnv alice 12, RevokeViewer dave) ] H)).
Defined.

Lemma score_handle_grants_witness :
  let r := transact vault accept_all (mkEnv bob 10) (SubmitRating alice 5 []) initial in
  fst r = Return (VRatingId 0) ∧
  FHE.decrypt (grants (snd r)) (Verified 5) bob = Some 5.
Proof.
  cbv zeta.
  assert (H : fst (transact vault accept_all (mkEnv bob 10) (SubmitRating alice 5 [])
                     initial) = Return (VRatingId (totalRatings initial)))
    by (vm_compute; reflexivity).
  split; [exact H|].
  exact (proj1 (score_handle_grants vault accept_all (mkEnv bob 10) alice 5 [] initial H)).
Defined.

Lemma stored_rating_is_permanent_witness :
  let r := transact vault accept_all (mkEnv bob 10) (SubmitRating alice 5 []) initial in
  let s' := run vault accept_all (snd r) (drop 1 rating_after_grant) in
  fst r = Return (VRatingId 0) ∧ bob ≠ address_zero ∧
  getRating 0 s' = (Return (bob, Verified 5, 10), s').
Proof.
  cbv zeta.
  assert (H : fst (transact vault accept_all (mkEnv bob 10) (SubmitRating alice 5 [])
                     initial) = Return (VRatingId 0)) by (vm_compute; reflexivity).
  assert (Hb : bob ≠ address_zero) by discriminate.
  split; [exact H|]. split; [exact Hb|].
  exact (stored_rating_is_permanent vault accept_all (mkEnv bob 10) alice 5 [] initial 0
           (drop 1 rating_after_grant) H Hb).
Defined.

Lemma indexes_partition_ids_witness :
  let s := run vault accept_all initial two_ratings in
  1 < totalRatings s ∧ is_Some (ratings s !! 1).
Proof.
  cbv zeta.
  assert (H : 1 < totalRatings (run vault accept_all initial two_ratings))
    by (vm_compute; reflexivity).
  split; [exact H|].
  exact (proj1 (proj1 (indexes_partition_ids vault accept_all two_ratings 1) H)).
Defined.

Lemma get_rating_found_iff_assigned_witness :
  let s := run vault accept_all initial two_ratings in
  senders_nonzero two_ratings ∧
  getRating 5 s =
  if decide (5 < totalRatings s)
  then (Return (rater (ratingAt s 5), encryptedScore (ratingAt s 5),
                timestamp (ratingAt s 5)), s)
  else (Revert NotFound, s).
Proof.
  cbv zeta.
  assert (H : senders_nonzero two_ratings) by (repeat constructor; discriminate).
  split; [exact H|].
  exact (get_rating_found_iff_assigned vault accept_all two_ratings 5 H).
Defined.

Lemma authorized_viewer_has_something_to_view_witness :
  let s := run vault accept_all initial (take 2 rating_after_grant) in
  isAuthorized s alice dave = true ∧ alice ≠ dave ∧ dave ≠ address_zero ∧
  (getEncryptedScore s alice).2 ≠ 0.
Proof.
  cbv zeta.
  assert (H : isAuthorized (run vault accept_all initial (take 2 rating_after_grant))
                alice dave = true) by (vm_compute; reflexivity).
  assert (Hne : alice ≠ dave) by discriminate.
  split; [exact H|]. split; [exact Hne|].
  pose proof (authorized_viewer_has_something_to_view vault accept_all
                (take 2 rating_after_grant) alice dave) as W.
  cbv zeta in W.
  destruct (getEncryptedScore _ alice) as [[total count] visible].
  destruct (W H Hne) as (Hz & Hv & _). by split.
Defined.

Lemma checked_scores_do_not_wrap_witness :
  let s := run vault accept_all initial two_ratings in
  let scores := (submissions alice (run_log vault accept_all initial two_ratings)).*2 in
  Forall (fun c => 1 ≤ c ≤ 5) scores ∧
  FHE.cleartext32 (encryptedTotalScore (scoreOf s alice)) = sum_scores scores.
Proof.
  cbv zeta.
  assert (H : Forall (fun c => 1 ≤ c ≤ 5)
                (submissions alice (run_log vault accept_all initial two_ratings)).*2).
  { assert (E : (submissions alice (run_log vault accept_all initial two_ratings)).*2
                = [5; 3]) by (vm_compute; reflexivity).
    rewrite E. repeat constructor; lia. }
  split; [exact H|].
  refine (proj1 (proj2 (checked_scores_do_not_wrap vault accept_all two_ratings alice H) _)).
  assert (E : (submissions alice (run_log vault accept_all initial two_ratings)).*2
              = [5; 3]) by (vm_compute; reflexivity).
  rewrite E. cbn. lia.
Defined.

Lemma viewer_list_characterized_witness :
  dave ∈ Hook.currentlyAuthorized [Hook.mkLogEvent dave 7] [Hook.mkLogEvent dave 7].
Proof.
  apply (viewer_list_characterized [Hook.mkLogEvent dave 7] [Hook.mkLogEvent dave 7] dave).
  exists (Hook.mkLogEvent dave 7). split; [apply list_elem_of_here|]. split; [done|].
  intros r ->%list_elem_of_singleton _. apply N.le_refl.
Defined.

Lemma viewer_list_matches_contract_witness :
  let txs := take 2 rating_after_grant in
  let chain := [ (1, RatingSubmitted 0 alice bob 10); (2, ViewerAuthorized alice dave) ] in
  chain.*2 = events (run vault accept_all initial txs) ∧
  StronglySorted N.lt chain.*1 ∧
  alice ≠ dave ∧
  (dave ∈ Hook.fetchAuthorizedViewers alice chain ↔
   isAuthorized (run vault accept_all initial txs) alice dave = true).
Proof.
  cbv zeta.
  set (chain := [ (1, RatingSubmitted 0 alice bob 10); (2, ViewerAuthorized alice dave) ]).
  assert (H1 : chain.*2 = events (run vault accept_all initial (take 2 rating_after_grant)))
    by (vm_compute; reflexivity).
  assert (H2 : StronglySorted N.lt chain.*1).
  { cbn. repeat constructor; lia. }
  assert (H3 : alice ≠ dave) by discriminate.
  split; [exact H1|]. split; [exact H2|]. split; [exact H3|].
  exact (viewer_list_matches_contract vault accept_all _ chain alice dave H1 H2 H3).
Defined.

Lemma same_block_revocation_is_missed_witness :
  let txs := take 2 rating_after_grant ++ [ (mkEnv alice 12, RevokeViewer dave) ] in
  let chain := [ (1, RatingSubmitted 0 alice bob 10) ] in
  let chain' := chain ++ [ (2, ViewerAuthorized alice dave); (2, ViewerRevoked alice dave) ] in
  chain'.*2 = events (run vault accept_all initial txs) ∧
  dave ∈ Hook.fetchAuthorizedViewers alice chain' ∧
  isAuthorized (run vault accept_all initial txs) alice dave = false.
Proof.
  cbv zeta. split; [vm_compute; reflexivity|].
  apply (same_block_revocation_is_missed vault accept_all
           (take 2 rating_after_grant ++ [ (mkEnv alice 12, RevokeViewer dave) ])
           [ (1, RatingSubmitted 0 alice bob 10) ] 2 alice dave).
  - vm_compute. reflexivity.
  - intros b' Hb. cbn in Hb. apply list_elem_of_singleton in Hb as ->. lia.
  - discriminate.
Defined.

Lemma fold_grants_operator_and_subject_witness :
  let r := transact vault accept_all (mkEnv bob 10) (SubmitRating alice 5 []) initial in
  fst r = Return (VRatingId 0) ∧
  (Verified 5, vault) ∈ grants (snd r) ∧ (Verified 5, alice) ∈ grants (snd r).
Proof.
  cbv zeta.
  assert (H : fst (transact vault accept_all (mkEnv bob 10) (SubmitRating alice 5 [])
                     initial) = Return (VRatingId 0)) by (vm_compute; reflexivity).
  split; [exact H|].
  pose proof (fold_grants_operator_and_subject vault accept_all (mkEnv bob 10) alice 5 []
                initial (VRatingId 0) H) as W.
  cbv zeta in W.
  destruct (getEncryptedScore _ alice) as [[total count] visible] eqn:E.
  vm_compute in E. injection E as <- <- <-.
  destruct W as (Wt & _ & Wu & _). by split.
Defined.

(** X17. A submission changes nothing for third parties: whoever is
    neither the contract, the rated user nor the sender decrypts after a
    [submitRating] transaction exactly the handles decrypted before it. *)
Theorem submission_grants_nothing_to_third_parties
    (this : address) (inputVerifier : address → externalEuint32 → bytes → bool)
    env u c p s h v :
  v ≠ this → v ≠ u → v ≠ msg_sender env →
  FHE.decrypt (grants (snd (transact this inputVerifier env (SubmitRating u c p) s))) h v
  = FHE.decrypt (grants s) h v.
Proof.
  intros Ht Hu Hs.
  pose proof (fold_grants_nothing_to_others this inputVerifier env u c p s h v Ht Hu Hs)
    as Hiff.
  unfold FHE.decrypt. repeat case_decide; tauto.
Qed.

Lemma submission_grants_nothing_to_third_parties_witness :
  let s := run vault accept_all initial (take 2 rating_after_grant) in
  let s' := snd (transact vault accept_all (mkEnv charlie 12) (SubmitRating alice 3 []) s) in
  dave ≠ vault ∧ dave ≠ alice ∧ dave ≠ charlie ∧
  FHE.decrypt (grants s') (Sum (Verified 5) (Verified 3)) dave
  = FHE.decrypt (grants s) (Sum (Verified 5) (Verified 3)) dave.
Proof.
  cbv zeta.
  assert (H1 : dave ≠ vault) by discriminate.
  assert (H2 : dave ≠ alice) by discriminate.
  assert (H3 : dave ≠ charlie) by discriminate.
  split; [exact H1|]. split; [exact H2|]. split; [exact H3|].
  exact (submission_grants_nothing_to_third_parties vault accept_all (mkEnv charlie 12)
           alice 3 [] _ (Sum (Verified 5) (Verified 3)) dave H1 H2 H3).
Defined.
